(** * gru: service resource, etcd minion client and the classifier command

    A shallow embedding of the three Go files of the repository
    (packages [command], [resource] and [client]).  Calls that leave the
    process (D-Bus, etcd, the terminal) are events of a small free monad;
    an execution is a trace of events with the answers the environment
    gave, so every statement below holds for every behaviour of systemd
    and of the etcd cluster. *)

From Stdlib Require Import ZArith.
From stdpp Require Import base option strings list gmap.

Set Default Proof Using "Type".

(** ** Go runtime: errors, abrupt termination, programs with effects *)

(** The [error] interface.  The only dynamic type the code tells apart is
    [etcdclient.Error] (by a type assertion); every other error value is
    kept by its text. *)
Inductive error : Type :=
| EtcdError (Code : Z) (Message : string)
| ErrorString (text : string).

#[global] Instance error_eq_dec : EqDecision error.
Proof. solve_decision. Defined.

(** [errors.New] *)
Definition errors_New (text : string) : error := ErrorString text.

(** Two ways a goroutine stops without returning. *)
Inductive Halt : Type :=
| panic (msg : string)
| os_Exit (code : Z).

Inductive Outcome (R : Type) : Type :=
| Returned (r : R)
| Halted (h : Halt).
Arguments Returned {R} r.
Arguments Halted {R} h.

(** A signature of external calls: the operations, and for each of them
    the type of the answer the environment gives. *)
Record Sig : Type := mkSig {
  Op : Type;
  Ans : Op → Type;
}.

(** Programs over a signature [E]. *)
Inductive Prog (E : Sig) (R : Type) : Type :=
| Ret (r : R)
| Vis (op : Op E) (k : Ans E op → Prog E R)
| Stop (h : Halt).
Arguments Ret {E R} r.
Arguments Vis {E R} op k.
Arguments Stop {E R} h.

Fixpoint bind {E R S} (p : Prog E R) (k : R → Prog E S) : Prog E S :=
  match p with
  | Ret r => k r
  | Vis op c => Vis op (λ x, bind (c x) k)
  | Stop h => Stop h
  end.

Definition call {E : Sig} (op : Op E) : Prog E (Ans E op) := Vis op Ret.

Declare Scope prog_scope.
Delimit Scope prog_scope with prog.
Notation "x <- p ;; q" := (bind p (λ x, q))
  (at level 100, p at next level, right associativity) : prog_scope.
Notation "p ;;; q" := (bind p (λ _, q))
  (at level 100, right associativity) : prog_scope.
Open Scope prog_scope.

(** One observed call: the operation together with its answer. *)
Definition Obs (E : Sig) : Type := { op : Op E & Ans E op }.
Definition obs {E : Sig} (op : Op E) (x : Ans E op) : Obs E := existT op x.

(** [exec p t o]: [p] can run to outcome [o] while the environment gives
    the answers recorded in [t].  The environment is not constrained. *)
Fixpoint exec {E R} (p : Prog E R) (t : list (Obs E)) (o : Outcome R) : Prop :=
  match p with
  | Ret r => t = [] ∧ o = Returned r
  | Stop h => t = [] ∧ o = Halted h
  | Vis op k => ∃ x t', t = obs op x :: t' ∧ exec (k x) t' o
  end.

(** An environment given as a function: world-passing answers. *)
Definition handler (E : Sig) (W : Type) : Type :=
  ∀ op : Op E, W → Ans E op * W.

Fixpoint run {E W R} (h : handler E W) (p : Prog E R) (w : W)
  : Outcome R * W * list (Obs E) :=
  match p with
  | Ret r => (Returned r, w, [])
  | Stop a => (Halted a, w, [])
  | Vis op k =>
      let '(x, w1) := h op w in
      let '(o, w2, t) := run h (k x) w1 in
      (o, w2, obs op x :: t)
  end.

(** The environment answered call [op] with [x] during [t]. *)
Definition answered {E : Sig} (t : list (Obs E)) (op : Op E) (x : Ans E op) : Prop :=
  obs op x ∈ t.

(** Go's [defer d] at the head of a body that does not panic: [d] runs
    when the body returns, whichever [return] is taken. *)
Definition deferring {E R} (d : Prog E unit) (body : Prog E R) : Prog E R :=
  r <- body ;; d ;;; Ret r.

(** Arguments of a [Printf]-style call, kept unformatted. *)
Inductive Arg : Type :=
| str (s : string)
| int (n : Z).

#[global] Instance Arg_eq_dec : EqDecision Arg.
Proof. solve_decision. Defined.

(** ** Package resource: the systemd service resource *)
Module resource.

(** Modelled from the spec: the state constants are declared outside this
    file; section 3 of the specification gives them as a closed enum
    (Unknown, Running, Stopped). *)
Inductive StateName : Type :=
| StateUnknown
| StateRunning
| StateStopped.

#[global] Instance StateName_eq_dec : EqDecision StateName.
Proof. solve_decision. Defined.

(** Modelled from the spec: the struct [State] is declared outside this
    file; section 3 gives it as the triple {Current, Want, Update}.  Its
    fields are read as [State.Current st], as Go writes [st.Current]. *)
Module State.
Record t : Type := mk {
    Current : StateName;
    Want : StateName;
    Update : bool;
  }.
End State.

(** Modelled from the spec: [BaseResource] is declared outside this file;
    the fields are those the service resource reads and writes. *)
Record BaseResource : Type := mkBaseResource {
  Name : string;
  ResourceType : string;
  State : StateName;
}.

(** Name of the service resource type *)
Definition serviceResourceType : string := "service".

Record ServiceResource : Type := mkServiceResource {
  Base : BaseResource;
  (* If true then enable service during boot-time *)
  Enable : bool;
  (* Systemd unit name *)
  UnitName : string;
}.

(** Modelled from the spec: [ID] is a method of [BaseResource], declared
    outside this file; section 3 derives the identity from name and type.
    It only appears in log lines. *)
Definition ID (s : ServiceResource) : string :=
  ResourceType (Base s) +:+ "[" +:+ Name (Base s) +:+ "]".

(** The packages [hcl], [ast] and [mergo]: decoding a declarative object into
    a [ServiceResource] and merging two of them are library calls. *)
Class Imports : Type := {
  ObjectItem : Type;
  (* hcl.DecodeObject(&s, obj), [s] being the zero value *)
  hcl_DecodeObject : ObjectItem → ServiceResource + error;
  (* mergo.Merge(&dst, src): the merged [dst] and the error *)
  mergo_Merge : ServiceResource → ServiceResource → ServiceResource * option error;
}.

(** [fmt.Sprintf("%s.service", name)] *)
Definition Sprintf_service (name : string) : string := name +:+ ".service".

Section NewServiceResource.
Context `{Imports}.

Definition NewServiceResource (obj : ObjectItem)
    : option ServiceResource * option error :=
    (* Resource defaults *)
    let defaults :=
      mkServiceResource
        (mkBaseResource "" serviceResourceType StateRunning)
        false (* Enables the service by default *)
        ""    (* Service unit name is set below *) in
    match hcl_DecodeObject obj with
    | inr err => (None, Some err)
    | inl s =>
        (* Merge the decoded object with the resource defaults *)
        let '(s, err) := mergo_Merge s defaults in
        (* Set unit name *)
        let s := mkServiceResource (Base s) (Enable s) (Sprintf_service (Name (Base s))) in
        (Some s, None)
    end.
End NewServiceResource.

(** *** The D-Bus connection to systemd and the log *)

Definition Conn : Type := nat.

(** The payload of a [dbus.Variant]. *)
Inductive Variant : Type :=
| VString (s : string)
| VBool (b : bool)
| VUint (n : N).

Record Property : Type := mkProperty {
  PropertyName : string;
  Value : Variant;
}.

(** [dbus.EnableUnitFileChange] and [dbus.DisableUnitFileChange] have the
    same three fields. *)
Record UnitFileChange : Type := mkChange {
  ChangeType : string;
  Filename : string;
  Destination : string;
}.

Inductive sysOp : Type :=
| dbus_New
| Conn_Close (conn : Conn)
| Conn_GetUnitProperty (conn : Conn) (unit propertyName : string)
| Conn_EnableUnitFiles (conn : Conn) (files : list string) (runtime force : bool)
| Conn_DisableUnitFiles (conn : Conn) (files : list string) (runtime : bool)
| Conn_Reload (conn : Conn)
(* StartUnit and StopUnit are handed a fresh result channel *)
| Conn_StartUnit (conn : Conn) (name mode : string)
| Conn_StopUnit (conn : Conn) (name mode : string)
(* result := <-ch *)
| recv_result
| log_Printf (format : string) (args : list Arg).

#[global] Instance sysOp_eq_dec : EqDecision sysOp.
Proof. solve_decision. Defined.

(** What each call answers; a Go pair (value, error) of which the code
    reads the value only when the error is nil is a sum. *)
Definition sysAns (op : sysOp) : Type :=
  match op with
  | dbus_New => Conn + error
  | Conn_Close _ => unit
  | Conn_GetUnitProperty _ _ _ => Property + error
  | Conn_EnableUnitFiles _ _ _ _ => bool * list UnitFileChange + error
  | Conn_DisableUnitFiles _ _ _ => list UnitFileChange + error
  | Conn_Reload _ => option error
  | Conn_StartUnit _ _ _ | Conn_StopUnit _ _ _ => Z + error
  | recv_result => string
  | log_Printf _ _ => unit
  end%type.

Canonical Structure sysE : Sig := mkSig sysOp sysAns.

(** [v.(string)]: a type assertion without the comma-ok form panics. *)
Definition assert_string (v : Variant) : Prog sysE string :=
  match v with
  | VString s => Ret s
  | _ => Stop (panic "interface conversion: interface {} is not string")
  end.

Fixpoint log_changes (s : ServiceResource) (with_destination : bool)
    (changes : list UnitFileChange) : Prog sysE unit :=
  match changes with
  | [] => Ret tt
  | change :: rest =>
      (if with_destination
       then call (log_Printf "%s %s %s -> %s"
                    [str (ID s); str (ChangeType change);
                     str (Filename change); str (Destination change)])
       else call (log_Printf "%s %s %s"
                    [str (ID s); str (ChangeType change); str (Filename change)])) ;;;
      log_changes s with_destination rest
  end.

(** unitProperty retrieves the requested property for the service unit *)
Definition unitProperty (s : ServiceResource) (propertyName : string)
  : Prog sysE (Property + error) :=
  r <- call dbus_New ;;
  match r with
  | inr err => Ret (inr err)
  | inl conn =>
      deferring (call (Conn_Close conn))
        (call (Conn_GetUnitProperty conn (UnitName s) propertyName))
  end.

Definition enabled_values : list string :=
  ["enabled"; "static"; "enabled-runtime"; "linked"; "linked-runtime"].
Definition disabled_values : list string :=
  ["disabled"; "masked"; "masked-runtime"].

(** unitIsEnabled checks if the unit is enabled or disabled *)
Definition unitIsEnabled (s : ServiceResource) : Prog sysE (bool * option error) :=
  r <- unitProperty s "UnitFileState" ;;
  match r with
  | inr err => Ret (false, Some err)
  | inl unitState =>
      value <- assert_string (Value unitState) ;;
      if bool_decide (value ∈ enabled_values) then Ret (true, None)
      else if bool_decide (value ∈ disabled_values) then Ret (false, None)
      else (* case "invalid": fallthrough; default: *)
        Ret (false, Some (errors_New "Invalid unit state"))
  end.

(** enableUnit enables the service unit during boot-time *)
Definition enableUnit (s : ServiceResource) : Prog sysE (option error) :=
  r <- call dbus_New ;;
  match r with
  | inr err => Ret (Some err)
  | inl conn =>
      deferring (call (Conn_Close conn))
        (call (log_Printf "%s enabling service" [str (ID s)]) ;;;
         let units := [UnitName s] in
         r <- call (Conn_EnableUnitFiles conn units false false) ;;
         match r with
         | inr err => Ret (Some err)
         | inl (_, changes) => log_changes s true changes ;;; Ret None
         end)
  end.

(** disableUnit disables the service unit during boot-time *)
Definition disableUnit (s : ServiceResource) : Prog sysE (option error) :=
  r <- call dbus_New ;;
  match r with
  | inr err => Ret (Some err)
  | inl conn =>
      deferring (call (Conn_Close conn))
        (call (log_Printf "%s disabling service" [str (ID s)]) ;;;
         let units := [UnitName s] in
         r <- call (Conn_DisableUnitFiles conn units false) ;;
         match r with
         | inr err => Ret (Some err)
         | inl changes => log_changes s false changes ;;; Ret None
         end)
  end.

(** daemonReload instructs systemd to scan for and reload unit files *)
Definition daemonReload (s : ServiceResource) : Prog sysE (option error) :=
  r <- call dbus_New ;;
  match r with
  | inr err => Ret (Some err)
  | inl conn => deferring (call (Conn_Close conn)) (call (Conn_Reload conn))
  end.

Definition running_values : list string := ["active"; "reloading"; "activating"].
Definition stopped_values : list string := ["inactive"; "failed"; "deactivating"].

(** Evaluate evaluates the state of the resource *)
Definition Evaluate (s : ServiceResource) : Prog sysE (State.t * option error) :=
  let resourceState := State.mk StateUnknown (State (Base s)) false in
  (* Check if the unit is started/stopped *)
  r <- unitProperty s "ActiveState" ;;
  match r with
  | inr err => Ret (resourceState, Some err)
  | inl activeState =>
      value <- assert_string (Value activeState) ;;
      let resourceState :=
        if bool_decide (value ∈ running_values)
        then State.mk StateRunning (State.Want resourceState) (State.Update resourceState)
        else if bool_decide (value ∈ stopped_values)
        then State.mk StateStopped (State.Want resourceState) (State.Update resourceState)
        else resourceState in
      (* Check if the unit is enabled/disabled *)
      r <- unitIsEnabled s ;;
      match r with
      | (_, Some err) => Ret (resourceState, Some err)
      | (enabled, None) =>
          (* Check if the resource needs to be updated *)
          let resourceState :=
            if negb (eqb (Enable s) enabled)
            then State.mk (State.Current resourceState) (State.Want resourceState) true
            else resourceState in
          Ret (resourceState, None)
      end
  end.

(** Create starts the service unit *)
Definition Create (s : ServiceResource) : Prog sysE (option error) :=
  r <- call dbus_New ;;
  match r with
  | inr err => Ret (Some err)
  | inl conn =>
      deferring (call (Conn_Close conn))
        (call (log_Printf "%s starting service" [str (ID s)]) ;;;
         r <- call (Conn_StartUnit conn (UnitName s) "replace") ;;
         match r with
         | inr err => Ret (Some err)
         | inl jobID =>
             result <- call recv_result ;;
             call (log_Printf "%s systemd job id %d result: %s"
                     [str (ID s); int jobID; str result]) ;;;
             Ret None
         end)
  end.

(** Delete stops the service unit *)
Definition Delete (s : ServiceResource) : Prog sysE (option error) :=
  r <- call dbus_New ;;
  match r with
  | inr err => Ret (Some err)
  | inl conn =>
      deferring (call (Conn_Close conn))
        (call (log_Printf "%s stopping service" [str (ID s)]) ;;;
         r <- call (Conn_StopUnit conn (UnitName s) "replace") ;;
         match r with
         | inr err => Ret (Some err)
         | inl jobID =>
             result <- call recv_result ;;
             call (log_Printf "%s systemd job id %d result: %s"
                     [str (ID s); int jobID; str result]) ;;;
             Ret None
         end)
  end.

(** Update updates the service unit state *)
Definition Update (s : ServiceResource) : Prog sysE (option error) :=
  r <- unitIsEnabled s ;;
  match r with
  | (_, Some err) => Ret (Some err)
  | (enabled, None) =>
      (if Enable s && negb enabled
       then enableUnit s
       else disableUnit s) ;;;
      daemonReload s
  end.

End resource.

(** ** The imported packages [uuid] and [etcdclient] *)

(** [uuid.UUID] with [uuid.Parse] (nil for a malformed string) and the
    method [String]. *)
Class UUIDPackage : Type := {
  UUID : Type;
  uuid_Parse : string → option UUID;
  uuid_String : UUID → string;
  UUID_eq_dec :: EqDecision UUID;
}.

Module etcdclient.

Definition ErrorCodeKeyNotFound : Z := 100.

#[warnings="-register-all"]
Inductive Node : Type := mkNode {
    Key : string;
    Value : string;
    Nodes : list Node;
  }.

Module Response.
Record t : Type := mk {
      Action : string;
      Node : Node;
    }.
End Response.

Record GetOptions : Type := mkGetOptions { Recursive : bool }.
Record CreateInOrderOptions : Type := mkCreateInOrderOptions { TTL : Z }.

#[global] Instance GetOptions_eq_dec : EqDecision GetOptions.
Proof. solve_decision. Defined.
#[global] Instance CreateInOrderOptions_eq_dec : EqDecision CreateInOrderOptions.
Proof. solve_decision. Defined.

End etcdclient.

(** ** Package client: the etcd minion client *)
Module client.
Import etcdclient.

(** Max number of concurrent requests to be
    performed against the etcd cluster at a time *)
Definition maxGoroutines : nat := 4.

(** Modelled from the spec: [minion.SimpleClassifier] is declared outside
    this file; section 3 gives a classifier as a key/value pair, and the
    classifier command reads its fields [Key] and [Value]. *)
Module SimpleClassifier.
Record t : Type := mk {
    Key : string;
    Value : string;
  }.
End SimpleClassifier.

#[global] Instance SimpleClassifier_eq_dec : EqDecision SimpleClassifier.t.
Proof. solve_decision. Defined.

(** The interface [minion.MinionClassifier] holds a pointer to a
    [SimpleClassifier]; [None] is the nil pointer. *)
Definition MinionClassifier : Type := option SimpleClassifier.t.

(** What the file takes from other packages: the key space root
    [minion.EtcdMinionSpace], the task type, and the library functions
    [path.Base], [filepath.Join], [json.Unmarshal] (into a fresh
    [*SimpleClassifier]) and [json.Marshal] (of a task). *)
Class Imports : Type := {
  EtcdMinionSpace : string;
  MinionTask : Type;
  path_Base : string → string;
  filepath_Join : list string → string;
  json_Unmarshal : string → MinionClassifier * option error;
  json_Marshal : MinionTask → string + error;
}.

(** The methods of [etcdclient.KeysAPI] the client calls. *)
Inductive kapiOp : Type :=
| KAPI_Get (key : string) (opts : option GetOptions)
| KAPI_CreateInOrder (dir value : string) (opts : option CreateInOrderOptions).

#[global] Instance kapiOp_eq_dec : EqDecision kapiOp.
Proof. solve_decision. Defined.

Definition kapiAns (op : kapiOp) : Type := (Response.t + error)%type.

Canonical Structure kapiE : Sig := mkSig kapiOp kapiAns.

Section Client.
Context `{UUIDPackage} `{Imports}.

(** Gets a classifier identified with key *)
Definition GetClassifier (u : UUID) (key : string)
    : Prog kapiE (MinionClassifier * option error) :=
    (* Classifier key in etcd *)
    let classifierKey :=
      filepath_Join [EtcdMinionSpace; uuid_String u; "classifier"; key] in
    r <- call (KAPI_Get classifierKey None) ;;
    match r with
    | inr err => Ret (None, Some err)
    | inl resp =>
        let '(klassifier, err) := json_Unmarshal (Value (Response.Node resp)) in
        Ret (klassifier, err)
    end.

(** The loop of [GetAllClassifiers] over [resp.Node.Nodes]. *)
Fixpoint decode_nodes (nodes : list Node) (classifiers : list MinionClassifier)
    : list MinionClassifier * option error :=
    match nodes with
    | [] => (classifiers, None)
    | node :: rest =>
        let '(klassifier, err) := json_Unmarshal (Value node) in
        match err with
        | Some err => (classifiers, Some err)
        | None => decode_nodes rest (classifiers ++ [klassifier])
        end
    end.

(** Gets all classifiers for a minion *)
Definition GetAllClassifiers (u : UUID)
    : Prog kapiE (list MinionClassifier * option error) :=
    let classifiers : list MinionClassifier := [] in
    (* Classifier directory key in etcd *)
    let classifierDirKey :=
      filepath_Join [EtcdMinionSpace; uuid_String u; "classifier"] in
    let opts := Some (mkGetOptions true) in
    r <- call (KAPI_Get classifierDirKey opts) ;;
    match r with
    | inr err => Ret (classifiers, Some err)
    | inl resp => Ret (decode_nodes (Nodes (Response.Node resp)) classifiers)
    end.

(** Submits a task to a minion *)
Definition SubmitTask (u : UUID) (t : MinionTask) : Prog kapiE (option error) :=
    let minionRootDir := filepath_Join [EtcdMinionSpace; uuid_String u] in
    let queueDir := filepath_Join [minionRootDir; "queue"] in
    r <- call (KAPI_Get minionRootDir None) ;;
    match r with
    | inr err => Ret (Some err)
    | inl _ =>
        match json_Marshal t with
        | inr err => Ret (Some err)
        | inl data =>
            r <- call (KAPI_CreateInOrder queueDir data None) ;;
            match r with
            | inr err => Ret (Some err)
            | inl _ => Ret None
            end
        end
    end.

(** *** GetClassifiedMinions: one producer, [maxGoroutines] workers

      The goroutines are modelled by their program points; [fire] performs
      the next atomic action of one goroutine, and an execution is any
      interleaving of such actions. *)

(** Capacity of [queue := make(chan uuid.UUID, 1024)] *)
Definition queueCapacity : nat := 1024.

Inductive Producer : Type :=
  | Sending (nodes : list Node) (* in the loop, [nodes] still to visit *)
  | Closed.                     (* after close(queue) *)

Inductive Worker : Type :=
  | Receiving                   (* for minionUUID := range queue *)
  | Looking (minionUUID : UUID) (* c.GetClassifier(minionUUID, key) *)
  | Setting (minionUUID : UUID) (klassifier : MinionClassifier) (* cm.Set *)
  | Done.                       (* wg.Done() *)

#[global] Instance Worker_eq_dec : EqDecision Worker.
Proof. unfold MinionClassifier. solve_decision. Defined.

Inductive Goroutine : Type :=
  | the_producer
  | worker (i : nat).

(** Modelled from the spec: [utils.ConcurrentMap] is declared outside this
      file; section 4.4 gives it as a concurrency-safe map keyed by the
      minion UUID string whose [Set] is atomic, so [cm] is a finite map
      updated in one step. *)
Record Config (W : Type) : Type := mkConfig {
    etcd : W;
    producer : Producer;
    queue : list UUID;
    workers : list Worker;
    cm : gmap string MinionClassifier;
    logged : list (string * list Arg);
  }.
Arguments mkConfig {W}.
Arguments etcd {W}.
Arguments producer {W}.
Arguments queue {W}.
Arguments workers {W}.
Arguments cm {W}.
Arguments logged {W}.

Section Fanout.
Context {W : Type} (h : handler kapiE W) (key : string).

Definition initial (w : W) (resp : Response.t) : Config W :=
      mkConfig w (Sending (Nodes (Response.Node resp))) []
        (replicate maxGoroutines Receiving) ∅ [].

Definition fire (g : Goroutine) (c : Config W) : option (Config W) :=
      match g with
      | the_producer =>
          match producer c with
          | Sending (node :: rest) =>
              let k := path_Base (Key node) in
              match uuid_Parse k with
              | None =>
                  Some (mkConfig (etcd c) (Sending rest) (queue c) (workers c) (cm c)
                          (logged c ++ [("Bad minion uuid found: %s\n", [str k])]))
              | Some u =>
                  (* queue <- u blocks while the buffer is full *)
                  if decide (length (queue c) < queueCapacity)
                  then Some (mkConfig (etcd c) (Sending rest) (queue c ++ [u])
                               (workers c) (cm c) (logged c))
                  else None
              end
          | Sending [] =>
              (* close(queue) *)
              Some (mkConfig (etcd c) Closed (queue c) (workers c) (cm c) (logged c))
          | Closed => None
          end
      | worker i =>
          match workers c !! i with
          | Some Receiving =>
              match queue c, producer c with
              | minionUUID :: rest, _ =>
                  Some (mkConfig (etcd c) (producer c) rest
                          (<[i := Looking minionUUID]> (workers c)) (cm c) (logged c))
              | [], Closed =>
                  Some (mkConfig (etcd c) (producer c) []
                          (<[i := Done]> (workers c)) (cm c) (logged c))
              | [], Sending _ => None
              end
          | Some (Looking minionUUID) =>
              match run h (GetClassifier minionUUID key) (etcd c) with
              | (Returned (_, Some err), w, _) =>
                  (* continue *)
                  Some (mkConfig w (producer c) (queue c)
                          (<[i := Receiving]> (workers c)) (cm c) (logged c))
              | (Returned (klassifier, None), w, _) =>
                  Some (mkConfig w (producer c) (queue c)
                          (<[i := Setting minionUUID klassifier]> (workers c))
                          (cm c) (logged c))
              | (Halted _, _, _) => None
              end
          | Some (Setting minionUUID klassifier) =>
              (* Set uuid and classifier in the concurrent map *)
              Some (mkConfig (etcd c) (producer c) (queue c)
                      (<[i := Receiving]> (workers c))
                      (<[uuid_String minionUUID := klassifier]> (cm c)) (logged c))
          | Some Done | None => None
          end
      end.

Definition step (c c' : Config W) : Prop := ∃ g, fire g c = Some c'.

(** [wg.Wait()] returns once every worker has called [wg.Done()]. *)
Definition all_done (c : Config W) : Prop := Forall (λ w, w = Done) (workers c).

(** The copy of the aggregate into an ordinary map. *)
Definition copy_result (m : gmap string MinionClassifier)
      : gmap string MinionClassifier :=
      foldl (λ result item, <[item.1 := item.2]> result) ∅ (map_to_list m).

(** Gets all minions which are classified with a given key.
        The keys of the result map are the minion uuids
        represented as a string *)
Inductive GetClassifiedMinions (w : W)
      : option (gmap string MinionClassifier) * option error → Prop :=
    | listing_failed err w1 :
        h (KAPI_Get EtcdMinionSpace None) w = (inr err, w1) →
        GetClassifiedMinions w (None, Some err)
    | workers_joined resp w1 c :
        h (KAPI_Get EtcdMinionSpace None) w = (inl resp, w1) →
        rtc step (initial w1 resp) c →
        all_done c →
        GetClassifiedMinions w (Some (copy_result (cm c)), None).

(** Run the goroutines in the order given by a schedule, skipping the
        entries whose goroutine cannot move. *)
Fixpoint run_schedule (sched : list Goroutine) (c : Config W) : Config W :=
      match sched with
      | [] => c
      | g :: rest =>
          match fire g c with
          | Some c' => run_schedule rest c'
          | None => run_schedule rest c
          end
      end.

End Fanout.

End Client.

Arguments mkConfig {_ W}.
Arguments etcd {_ W}.
Arguments producer {_ W}.
Arguments queue {_ W}.
Arguments workers {_ W}.
Arguments cm {_ W}.
Arguments logged {_ W}.

(** What the remaining methods take from other packages:
    [strconv.ParseInt(s, 10, 64)] and [minion.UnmarshalEtcdMinionTask]. *)
Class TaskImports `{Imports} : Type := {
  strconv_ParseInt : string → Z + error;
  UnmarshalEtcdMinionTask : Node → MinionTask * option error;
}.

Section Getters.
Context `{UUIDPackage} `{TaskImports}.

(** Gets the name of the minion *)
Definition GetName (u : UUID) : Prog kapiE (string * option error) :=
    let nameKey := filepath_Join [EtcdMinionSpace; uuid_String u; "name"] in
    r <- call (KAPI_Get nameKey None) ;;
    match r with
    | inr err => Ret ("", Some err)
    | inl resp => Ret (Value (Response.Node resp), None)
    end.

(** Gets the time the minion was last seen *)
Definition GetLastseen (u : UUID) : Prog kapiE (Z * option error) :=
    let lastseenKey := filepath_Join [EtcdMinionSpace; uuid_String u; "lastseen"] in
    r <- call (KAPI_Get lastseenKey None) ;;
    match r with
    | inr err => Ret (0%Z, Some err)
    | inl resp =>
        match strconv_ParseInt (Value (Response.Node resp)) with
        | inr err => Ret (0%Z, Some err)
        | inl lastseen => Ret (lastseen, None)
        end
    end.

(** *** GetTask: the same fan-out, with [resp] and [err] shared

      The workers of [GetTask] assign the result of their read to the
      variables [resp] and [err] of the enclosing function ([=], not
      [:=]), so these two variables are shared by all workers.  Each
      action of [fire_task] is one statement of the loop body. *)

Inductive TaskWorker : Type :=
  | TaskReceiving                 (* for minionUUID := range queue *)
  | TaskGetting (minionUUID : UUID)  (* resp, err = c.KAPI.Get(...) *)
  | TaskChecking (minionUUID : UUID) (* if err != nil { continue } *)
  | TaskDecoding (minionUUID : UUID) (* t, err := UnmarshalEtcdMinionTask(resp.Node) *)
  | TaskSetting (minionUUID : UUID) (t : MinionTask) (* cm.Set *)
  | TaskDone.                     (* wg.Done() *)

Record TaskConfig (W : Type) : Type := mkTaskConfig {
    task_etcd : W;
    task_producer : Producer;
    task_queue : list UUID;
    task_workers : list TaskWorker;
    (* resp, err := c.KAPI.Get(..., minion.EtcdMinionSpace, nil); a failed
       read leaves a nil response *)
    task_resp : option Response.t;
    task_err : option error;
    task_cm : gmap string MinionTask;
    task_logged : list (string * list Arg);
    (* a goroutine panicked: the process is gone *)
    task_panicked : option Halt;
  }.
Arguments mkTaskConfig {W}.
Arguments task_etcd {W}.
Arguments task_producer {W}.
Arguments task_queue {W}.
Arguments task_workers {W}.
Arguments task_resp {W}.
Arguments task_err {W}.
Arguments task_cm {W}.
Arguments task_logged {W}.
Arguments task_panicked {W}.

Section TaskFanout.
Context {W : Type} (h : handler kapiE W) (task : UUID).

Definition task_initial (w : W) (resp : Response.t) : TaskConfig W :=
      mkTaskConfig w (Sending (Nodes (Response.Node resp))) []
        (replicate maxGoroutines TaskReceiving) (Some resp) None ∅ [] None.

Definition with_worker (c : TaskConfig W) (i : nat) (x : TaskWorker)
      : TaskConfig W :=
      mkTaskConfig (task_etcd c) (task_producer c) (task_queue c)
        (<[i := x]> (task_workers c)) (task_resp c) (task_err c) (task_cm c)
        (task_logged c) (task_panicked c).

Definition fire_task (g : Goroutine) (c : TaskConfig W) : option (TaskConfig W) :=
      match task_panicked c with
      | Some _ => None
      | None =>
      match g with
      | the_producer =>
          match task_producer c with
          | Sending (node :: rest) =>
              let k := path_Base (Key node) in
              match uuid_Parse k with
              | None =>
                  Some (mkTaskConfig (task_etcd c) (Sending rest) (task_queue c)
                          (task_workers c) (task_resp c) (task_err c) (task_cm c)
                          (task_logged c ++ [("Bad minion uuid found: %s\n", [str k])])
                          None)
              | Some u =>
                  if decide (length (task_queue c) < queueCapacity)
                  then Some (mkTaskConfig (task_etcd c) (Sending rest)
                               (task_queue c ++ [u]) (task_workers c) (task_resp c)
                               (task_err c) (task_cm c) (task_logged c) None)
                  else None
              end
          | Sending [] =>
              Some (mkTaskConfig (task_etcd c) Closed (task_queue c) (task_workers c)
                      (task_resp c) (task_err c) (task_cm c) (task_logged c) None)
          | Closed => None
          end
      | worker i =>
          match task_workers c !! i with
          | Some TaskReceiving =>
              match task_queue c, task_producer c with
              | minionUUID :: rest, _ =>
                  Some (mkTaskConfig (task_etcd c) (task_producer c) rest
                          (<[i := TaskGetting minionUUID]> (task_workers c))
                          (task_resp c) (task_err c) (task_cm c) (task_logged c) None)
              | [], Closed => Some (with_worker c i TaskDone)
              | [], Sending _ => None
              end
          | Some (TaskGetting minionUUID) =>
              (* Task key in etcd *)
              let minionTaskKey :=
                filepath_Join [EtcdMinionSpace; uuid_String minionUUID; "log";
                               uuid_String task] in
              let '(x, w) := h (KAPI_Get minionTaskKey None) (task_etcd c) in
              let '(resp, err) :=
                match x with
                | inl resp => (Some resp, None)
                | inr err => (None, Some err)
                end in
              Some (mkTaskConfig w (task_producer c) (task_queue c)
                      (<[i := TaskChecking minionUUID]> (task_workers c))
                      resp err (task_cm c) (task_logged c) None)
          | Some (TaskChecking minionUUID) =>
              match task_err c with
              | Some _ => Some (with_worker c i TaskReceiving)
              | None => Some (with_worker c i (TaskDecoding minionUUID))
              end
          | Some (TaskDecoding minionUUID) =>
              match task_resp c with
              | None =>
                  (* resp.Node on a nil response *)
                  Some (mkTaskConfig (task_etcd c) (task_producer c) (task_queue c)
                          (task_workers c) (task_resp c) (task_err c) (task_cm c)
                          (task_logged c)
                          (Some (panic "invalid memory address or nil pointer dereference")))
              | Some resp =>
                  match UnmarshalEtcdMinionTask (Response.Node resp) with
                  | (_, Some err) => Some (with_worker c i TaskReceiving)
                  | (t, None) => Some (with_worker c i (TaskSetting minionUUID t))
                  end
              end
          | Some (TaskSetting minionUUID t) =>
              (* Set uuid and task in the concurrent map *)
              Some (mkTaskConfig (task_etcd c) (task_producer c) (task_queue c)
                      (<[i := TaskReceiving]> (task_workers c)) (task_resp c)
                      (task_err c) (<[uuid_String minionUUID := t]> (task_cm c))
                      (task_logged c) None)
          | Some TaskDone | None => None
          end
      end
      end.

Definition task_step (c c' : TaskConfig W) : Prop := ∃ g, fire_task g c = Some c'.

Definition task_all_done (c : TaskConfig W) : Prop :=
      Forall (λ x, x = TaskDone) (task_workers c).

Definition copy_tasks (m : gmap string MinionTask) : gmap string MinionTask :=
      foldl (λ result item, <[item.1 := item.2]> result) ∅ (map_to_list m).

(** Gets task results for all minions that
        have a task with the given uuid *)
Inductive GetTask (w : W)
      : Outcome (option (gmap string MinionTask) * option error) → Prop :=
    | task_listing_failed err w1 :
        h (KAPI_Get EtcdMinionSpace None) w = (inr err, w1) →
        GetTask w (Returned (None, Some err))
    | task_workers_joined resp w1 c :
        h (KAPI_Get EtcdMinionSpace None) w = (inl resp, w1) →
        rtc task_step (task_initial w1 resp) c →
        task_panicked c = None →
        task_all_done c →
        GetTask w (Returned (Some (copy_tasks (task_cm c)), None))
    | task_worker_panicked resp w1 c a :
        h (KAPI_Get EtcdMinionSpace None) w = (inl resp, w1) →
        rtc task_step (task_initial w1 resp) c →
        task_panicked c = Some a →
        GetTask w (Halted a).

(** Run the goroutines in the order given by a schedule, skipping the
        entries whose goroutine cannot move. *)
Fixpoint run_task_schedule (sched : list Goroutine) (c : TaskConfig W)
      : TaskConfig W :=
      match sched with
      | [] => c
      | g :: rest =>
          match fire_task g c with
          | Some c' => run_task_schedule rest c'
          | None => run_task_schedule rest c
          end
      end.

End TaskFanout.
End Getters.

Arguments mkTaskConfig {_ _ W}.
Arguments task_etcd {_ _ W}.
Arguments task_producer {_ _ W}.
Arguments task_queue {_ _ W}.
Arguments task_workers {_ _ W}.
Arguments task_resp {_ _ W}.
Arguments task_err {_ _ W}.
Arguments task_cm {_ _ W}.
Arguments task_logged {_ _ W}.
Arguments task_panicked {_ _ W}.

End client.

(** ** Package command: the classifier sub-command *)
Module command.
Import etcdclient.

(** [cli.Context]: only the positional arguments are read here. *)
Record Context : Type := mkContext { Args : list string }.

#[global] Instance Context_eq_dec : EqDecision Context.
Proof. solve_decision. Defined.

(** [uitable.Table] *)
Record Table : Type := mkTable {
  MaxColWidth : Z;
  Rows : list (list string);
}.

#[global] Instance Table_eq_dec : EqDecision Table.
Proof. solve_decision. Defined.

Definition uitable_New : Table := mkTable 0 [].
Definition AddRow (table : Table) (row : list string) : Table :=
  mkTable (MaxColWidth table) (Rows table ++ [row]).

(** The package-level errors of the command package, declared outside this
    file. *)
Class Imports : Type := {
  errNoMinion : error;
  errInvalidUUID : error;
}.

(** The minion client handle returned by [newEtcdMinionClientFromFlags]. *)
Definition MinionClient : Type := nat.

Section Command.
Context `{UUIDPackage} `{Imports}.

(** Calls into the rest of the program and the terminal.  The two client
      methods answer with a Go pair: the value and the error. *)
Inductive cmdOp : Type :=
  | newEtcdMinionClientFromFlags (c : Context)
  | MinionClassifierKeys (client : MinionClient) (minion : UUID)
  | MinionClassifier (client : MinionClient) (minion : UUID) (key : string)
  | fmt_Println (table : Table)
  | print_error (err : error).

#[global] Instance cmdOp_eq_dec : EqDecision cmdOp.
Proof. solve_decision. Defined.

Definition cmdAns (op : cmdOp) : Type :=
    match op with
    | newEtcdMinionClientFromFlags _ => MinionClient
    | MinionClassifierKeys _ _ => list string * option error
    | MinionClassifier _ _ _ => client.SimpleClassifier.t * option error
    | fmt_Println _ | print_error _ => unit
    end%type.

Canonical Structure cmdE : Sig := mkSig cmdOp cmdAns.

(** Modelled from the spec: [displayError] is declared outside this file;
      section 7 maps a propagated error to a non-zero exit with the error
      text, so it prints the error and ends the process with [code]. *)
Definition displayError {R} (err : error) (code : Z) : Prog cmdE R :=
    call (print_error err) ;;; Stop (os_Exit code).

(** The loop over [classifierKeys]. *)
Fixpoint add_rows (client : MinionClient) (minion : UUID)
      (classifierKeys : list string) (table : Table) : Prog cmdE Table :=
    match classifierKeys with
    | [] => Ret table
    | key :: rest =>
        r <- call (MinionClassifier client minion key) ;;
        match r with
        | (_, Some err) => displayError err 1
        | (classifier, None) =>
            add_rows client minion rest
              (AddRow table [client.SimpleClassifier.Key classifier;
                             client.SimpleClassifier.Value classifier])
        end
    end.

(** Executes the "classifier" command *)
Definition execClassifierCommand (c : Context) : Prog cmdE unit :=
    match Args c with
    | [] => displayError errNoMinion 64
    | arg :: _ =>
        match uuid_Parse arg with
        | None => displayError errInvalidUUID 64
        | Some minion =>
            client <- call (newEtcdMinionClientFromFlags c) ;;
            (* Ignore errors about missing classifier directory *)
            r <- call (MinionClassifierKeys client minion) ;;
            let '(classifierKeys, err) := r in
            (match err with
             | Some (EtcdError Code _ as err) =>
                 if decide (Code ≠ ErrorCodeKeyNotFound)
                 then displayError err 1
                 else Ret tt
             | Some err => displayError err 1
             | None => Ret tt
             end) ;;;
            if decide (length classifierKeys = 0)
            then Ret tt
            else
              let table := uitable_New in
              let table := mkTable 80 (Rows table) in
              let table := AddRow table ["KEY"; "VALUE"] in
              table <- add_rows client minion classifierKeys table ;;
              call (fmt_Println table)
        end
    end.

End Command.
End command.

(** * Vocabulary of the statements *)

(** [only P p]: the program [p] performs only calls that satisfy [P], and
    it returns whatever the environment answers. *)
Fixpoint only {E R} (P : Op E → Prop) (p : Prog E R) : Prop :=
  match p with
  | Ret _ => True
  | Stop _ => False
  | Vis op k => P op ∧ ∀ x, only P (k x)
  end.

(** [within P p]: the program [p] performs only calls that satisfy [P];
    it may stop. *)
Fixpoint within {E R} (P : Op E → Prop) (p : Prog E R) : Prop :=
  match p with
  | Ret _ | Stop _ => True
  | Vis op k => P op ∧ ∀ x, within P (k x)
  end.

(** The calls made along a trace. *)
Definition calls {E} (t : list (Obs E)) : list (Op E) := projT1 <$> t.

Module resource_spec.
Import resource.

(** The answer of [unitIsEnabled] for a [UnitFileState] string. *)
Definition enablement (value : string) : bool * option error :=
  if bool_decide (value ∈ enabled_values) then (true, None)
  else if bool_decide (value ∈ disabled_values) then (false, None)
  else (false, Some (errors_New "Invalid unit state")).

(** The value of [Current] for an [ActiveState] string. *)
Definition activation (value : string) : StateName :=
  if bool_decide (value ∈ running_values) then StateRunning
  else if bool_decide (value ∈ stopped_values) then StateStopped
  else StateUnknown.

(** The calls of [enableUnit], [disableUnit] and [daemonReload]: none of
    them reads a unit property. *)
Definition writes_only (op : sysOp) : Prop :=
  match op with
  | Conn_GetUnitProperty _ _ _ | Conn_StartUnit _ _ _ | Conn_StopUnit _ _ _
  | recv_result => False
  | _ => True
  end.

End resource_spec.


(** * Scenarios

    A small simulation of systemd behind the D-Bus calls, used to run the
    resource on concrete hosts. *)
Module scenario.
Import resource.

Record Systemd : Type := mkSystemd {
  bus_up : bool;           (* can dbus.New() connect *)
  active_state : string;   (* ActiveState of the unit *)
  unit_file_state : string;(* UnitFileState of the unit *)
  jobs_fail : bool;        (* start and stop jobs end with "failed" *)
  enabling_fails : bool;   (* EnableUnitFiles and DisableUnitFiles fail *)
  journal : list (string * list Arg);
}.

Definition systemd : handler sysE Systemd := λ op w,
  match op as op0 return Ans sysE op0 * Systemd with
  | dbus_New =>
      (if bus_up w then inl 1 else inr (ErrorString "dial unix: connection refused"), w)
  | Conn_Close _ => (tt, w)
  | Conn_GetUnitProperty _ _ propertyName =>
      (if decide (propertyName = "ActiveState")
       then inl (mkProperty propertyName (VString (active_state w)))
       else if decide (propertyName = "UnitFileState")
       then inl (mkProperty propertyName (VString (unit_file_state w)))
       else inr (ErrorString "Unknown property"), w)
  | Conn_EnableUnitFiles _ files _ _ =>
      if enabling_fails w
      then (inr (ErrorString "Access denied"), w)
      else (inl (true, (λ f, mkChange "symlink" f "/usr/lib/systemd/system") <$> files),
            mkSystemd (bus_up w) (active_state w) "enabled" (jobs_fail w)
              (enabling_fails w) (journal w))
  | Conn_DisableUnitFiles _ files _ =>
      if enabling_fails w
      then (inr (ErrorString "Access denied"), w)
      else (inl ((λ f, mkChange "unlink" f "") <$> files),
            mkSystemd (bus_up w) (active_state w) "disabled" (jobs_fail w)
              (enabling_fails w) (journal w))
  | Conn_Reload _ => (None, w)
  | Conn_StartUnit _ _ _ =>
      (inl 42%Z,
       if jobs_fail w then w
       else mkSystemd (bus_up w) "active" (unit_file_state w) (jobs_fail w)
              (enabling_fails w) (journal w))
  | Conn_StopUnit _ _ _ =>
      (inl 43%Z,
       if jobs_fail w then w
       else mkSystemd (bus_up w) "inactive" (unit_file_state w) (jobs_fail w)
              (enabling_fails w) (journal w))
  | recv_result => (if jobs_fail w then "failed" else "done", w)
  | log_Printf format args =>
      (tt, mkSystemd (bus_up w) (active_state w) (unit_file_state w) (jobs_fail w)
             (enabling_fails w) (journal w ++ [(format, args)]))
  end.

(** A service declared running and enabled at boot. *)
Definition nginx : ServiceResource :=
  mkServiceResource (mkBaseResource "nginx" "service" StateRunning) true
    "nginx.service".

(** Hosts. *)
Definition host (active file_state : string) : Systemd :=
  mkSystemd true active file_state false false [].
Definition failing_host (active file_state : string) : Systemd :=
  mkSystemd true active file_state true true [].

(** A declarative object is a list of attributes; the decoder wants a
    name, and this merge reports an error after filling the defaults. *)
#[local] Instance attributes : Imports := {|
  ObjectItem := list (string * string);
  hcl_DecodeObject obj :=
    match (list_to_map obj : gmap string string) !! "name" with
    | Some name =>
        inl (mkServiceResource (mkBaseResource name "" StateUnknown)
               (bool_decide ((list_to_map obj : gmap string string) !! "enable"
                             = Some "true")) "")
    | None => inr (ErrorString "missing name")
    end;
  mergo_Merge dst src :=
    (mkServiceResource
       (mkBaseResource
          (if decide (Name (Base dst) = "") then Name (Base src) else Name (Base dst))
          (if decide (ResourceType (Base dst) = "")
           then ResourceType (Base src) else ResourceType (Base dst))
          (State (Base src)))
       (Enable dst || Enable src)
       (if decide (UnitName dst = "") then UnitName src else UnitName dst),
     Some (ErrorString "src and dst must be of same type"));
|}.

End scenario.

(** * Vocabulary for the etcd client *)
Module client_spec.
Import etcdclient client.

Section Spec.
Context `{UUIDPackage} `{Imports}.

(** The minions a directory listing enumerates: the children whose
      last path element parses as a UUID, in listing order. *)
Definition enumerated (resp : Response.t) : list UUID :=
    omap (λ node, uuid_Parse (path_Base (Key node))) (Nodes (Response.Node resp)).

(** An operation on the queue of a minion. *)
Definition is_insert (op : kapiOp) : Prop :=
    match op with
    | KAPI_CreateInOrder _ _ _ => True
    | KAPI_Get _ _ => False
    end.

Section Store.
Context {W : Type} (h : handler kapiE W) (key : string) (w : W).

(** The classifier [GetClassifier] retrieves for a minion from the
        store [w], if the lookup succeeds. *)
Definition retrieved (u : UUID) : option MinionClassifier :=
      match (run h (GetClassifier u key) w).1.1 with
      | Returned (klassifier, None) => Some klassifier
      | _ => None
      end.

(** The minions whose lookup succeeds, each with its classifier, keyed
        as the result map is. *)
Definition classified (resp : Response.t) : list (string * MinionClassifier) :=
      omap (λ u, (λ k, (uuid_String u, k)) <$> retrieved u) (enumerated resp).

(** The UUIDs the producer has still to send. *)
Definition to_send (p : Producer) : list UUID :=
      match p with
      | Sending nodes => omap (λ node, uuid_Parse (path_Base (Key node))) nodes
      | Closed => []
      end.

(** What ties a configuration of the fan-out to the listing [resp] on
        the store [w]: every entry of the aggregate, and every UUID in
        flight, comes from the listing; every classified minion of the
        listing is in the aggregate or still in flight; and a worker has
        finished only after the queue was closed and drained. *)
Definition consistent (resp : Response.t) (c : Config W) : Prop :=
      etcd c = w ∧
      length (workers c) = maxGoroutines ∧
      (∀ s k, cm c !! s = Some k →
         ∃ u, u ∈ enumerated resp ∧ uuid_String u = s ∧ retrieved u = Some k) ∧
      (∀ i u k, workers c !! i = Some (Setting u k) →
         u ∈ enumerated resp ∧ retrieved u = Some k) ∧
      (∀ i u, workers c !! i = Some (Looking u) → u ∈ enumerated resp) ∧
      (∀ u, u ∈ queue c → u ∈ enumerated resp) ∧
      (∀ u, u ∈ to_send (producer c) → u ∈ enumerated resp) ∧
      (∀ u k, u ∈ enumerated resp → retrieved u = Some k →
         cm c !! uuid_String u = Some k ∨
         u ∈ to_send (producer c) ∨
         u ∈ queue c ∨
         (∃ i, workers c !! i = Some (Looking u)) ∨
         (∃ i, workers c !! i = Some (Setting u k))) ∧
      ((∃ i, workers c !! i = Some Done) → producer c = Closed ∧ queue c = []).

(** A bound on the number of actions left. *)
Definition producer_fuel (p : Producer) : nat :=
      match p with
      | Sending nodes => 4 * length nodes + 1
      | Closed => 0
      end.
Definition worker_fuel (x : Worker) : nat :=
      match x with
      | Looking _ => 3
      | Setting _ _ => 2
      | Receiving => 1
      | Done => 0
      end.
Definition fuel (c : Config W) : nat :=
      producer_fuel (producer c) + 3 * length (queue c)
      + sum_list (worker_fuel <$> workers c).
End Store.

End Spec.
End client_spec.

(** * Scenarios for the etcd client

    A toy cluster: the store is a finite map from keys to nodes, task
    payloads and classifiers are written as [key=value] text in place of
    JSON, and a UUID is accepted by its length. *)
Module cluster.
Import etcdclient client.

(** The text before and after the first [=]. *)
Fixpoint cut (data : string) : option (string * string) :=
  match data with
  | EmptyString => None
  | String c rest =>
      if Ascii.eqb c (Ascii.ascii_of_nat 61) then Some (EmptyString, rest)
      else match cut rest with
           | Some (k, v) => Some (String c k, v)
           | None => None
           end
  end.

(** The text after the last [/]. *)
Fixpoint last_element (p acc : string) : string :=
  match p with
  | EmptyString => acc
  | String c rest =>
      if Ascii.eqb c (Ascii.ascii_of_nat 47) then last_element rest EmptyString
      else last_element rest (acc +:+ String c EmptyString)
  end.

#[export] Instance uuids : UUIDPackage := {|
  UUID := string;
  uuid_Parse s := if decide (String.length s = 36) then Some s else None;
  uuid_String u := u;
|}.

#[export] Instance imports : Imports := {|
  EtcdMinionSpace := "/gru/minion";
  MinionTask := string;
  path_Base p := last_element p EmptyString;
  filepath_Join elements := String.concat "/" elements;
  json_Unmarshal data :=
    match cut data with
    | Some (k, v) => (Some (SimpleClassifier.mk k v), None)
    | None =>
        (Some (SimpleClassifier.mk "" ""),
         Some (ErrorString "invalid character looking for beginning of value"))
    end;
  json_Marshal task :=
    if decide (task = "") then inr (ErrorString "json: unsupported value")
    else inl task;
|}.

Record Store : Type := mkStore {
  tree : gmap string Node;
  inserted : list (string * string);
}.

Definition etcd : handler kapiE Store := λ op w,
  match op with
  | KAPI_Get key _ =>
      (match tree w !! key with
       | Some node => inl (Response.mk "get" node)
       | None => inr (EtcdError ErrorCodeKeyNotFound "Key not found")
       end, w)
  | KAPI_CreateInOrder dir value _ =>
      (inl (Response.mk "create" (mkNode dir value [])),
       mkStore (tree w) (inserted w ++ [(dir, value)]))
  end.

Definition leaf (key value : string) : Node := mkNode key value [].
Definition dir (key : string) (children : list Node) : Node := mkNode key "" children.

Definition m1 : string := "f0e1d2c3-0000-4000-8000-000000000001".
Definition m2 : string := "f0e1d2c3-0000-4000-8000-000000000002".
Definition m3 : string := "f0e1d2c3-0000-4000-8000-000000000003".

(** Three minions; [m1] and [m3] carry the classifier [role], the one of
    [m3] is not decodable, [m2] has none; and one stray directory. *)
Definition fleet : Store :=
  let c1 := leaf "/gru/minion/f0e1d2c3-0000-4000-8000-000000000001/classifier/role" "role=web" in
  let e1 := leaf "/gru/minion/f0e1d2c3-0000-4000-8000-000000000001/classifier/env" "prod" in
  let c3 := leaf "/gru/minion/f0e1d2c3-0000-4000-8000-000000000003/classifier/role" "web" in
  let d1 := dir "/gru/minion/f0e1d2c3-0000-4000-8000-000000000001" [] in
  let d2 := dir "/gru/minion/f0e1d2c3-0000-4000-8000-000000000002" [] in
  let d3 := dir "/gru/minion/f0e1d2c3-0000-4000-8000-000000000003" [] in
  let stray := dir "/gru/minion/lost+found" [] in
  mkStore
    (list_to_map
       [("/gru/minion", dir "/gru/minion" [d1; d2; stray; d3]);
        (Key d1, d1); (Key d2, d2); (Key d3, d3);
        ("/gru/minion/f0e1d2c3-0000-4000-8000-000000000001/classifier",
         dir "/gru/minion/f0e1d2c3-0000-4000-8000-000000000001/classifier" [c1; e1]);
        (Key c1, c1); (Key e1, e1); (Key c3, c3)])
    [].

(** The answer of the store to the listing of the minion space. *)
Definition listing : Response.t :=
  Response.mk "get"
    (dir "/gru/minion"
       [dir "/gru/minion/f0e1d2c3-0000-4000-8000-000000000001" [];
        dir "/gru/minion/f0e1d2c3-0000-4000-8000-000000000002" [];
        dir "/gru/minion/lost+found" [];
        dir "/gru/minion/f0e1d2c3-0000-4000-8000-000000000003" []]).

End cluster.

(** * Vocabulary and a scenario for the classifier command *)
Module command_spec.
Import command.

Section Spec.
Context `{UUIDPackage}.

(** The calls that write to the terminal. *)
Definition prints (op : cmdOp) : Prop :=
    match op with
    | fmt_Println _ | print_error _ => True
    | _ => False
    end.

(** The calls of the part of the command that builds and prints the
      table. *)
Definition table_call (op : cmdOp) : Prop :=
    match op with
    | MinionClassifier _ _ _ | fmt_Println _ | print_error _ => True
    | _ => False
    end.
End Spec.

(** A terminal session against the toy cluster: minion [m1] has the
    classifier [role], every other minion has no classifier directory. *)
#[export] Instance errors : Imports := {|
  errNoMinion := ErrorString "Missing minion uuid";
  errInvalidUUID := ErrorString "Invalid uuid given";
|}.

Record Terminal : Type := mkTerminal {
  stdout : list Table;
  stderr : list error;
}.

Definition session : handler (cmdE (H:=cluster.uuids)) Terminal := λ op w,
  match op as op0 return Ans (cmdE (H:=cluster.uuids)) op0 * Terminal with
  | newEtcdMinionClientFromFlags _ => (7, w)
  | MinionClassifierKeys _ minion =>
      (if decide (minion = cluster.m1) then (["role"], None)
       else ([], Some (EtcdError etcdclient.ErrorCodeKeyNotFound "Key not found")), w)
  | MinionClassifier _ _ key => ((client.SimpleClassifier.mk key "web", None), w)
  | fmt_Println table => (tt, mkTerminal (stdout w ++ [table]) (stderr w))
  | print_error err => (tt, mkTerminal (stdout w) (stderr w ++ [err]))
  end.

End command_spec.

(** * Vocabulary for the remaining properties *)
Module task_spec.
Import etcdclient client.

Section Spec.
Context `{UUIDPackage} `{TaskImports}.

(** The key under which a minion logs the result of a task. *)
Definition task_log_key (u task : UUID) : string :=
    filepath_Join [EtcdMinionSpace; uuid_String u; "log"; uuid_String task].
End Spec.
End task_spec.

Module resource_more.
Import resource.

(** The connection that is open after one call, starting with [st] open;
    [None] as a result means the call breaks the discipline: a second
    connection while one is open, or a call on a connection that is not
    the open one. *)
Definition conn_step (st : option Conn) (o : Obs sysE) : option (option Conn) :=
  match o with
  | existT op x =>
      match op as op0 return sysAns op0 → option (option Conn) with
      | dbus_New =>
          λ x, match st, x with
               | None, inl conn => Some (Some conn)
               | None, inr _ => Some None
               | Some _, _ => None
               end
      | Conn_Close conn => λ _, if decide (st = Some conn) then Some None else None
      | Conn_GetUnitProperty conn _ _ | Conn_EnableUnitFiles conn _ _ _
      | Conn_DisableUnitFiles conn _ _ | Conn_Reload conn
      | Conn_StartUnit conn _ _ | Conn_StopUnit conn _ _ =>
          λ _, if decide (st = Some conn) then Some st else None
      | recv_result | log_Printf _ _ => λ _, Some st
      end x
  end.

Fixpoint conn_after (st : option Conn) (t : list (Obs sysE)) : option (option Conn) :=
  match t with
  | [] => Some st
  | o :: t' =>
      match conn_step st o with
      | Some st' => conn_after st' t'
      | None => None
      end
  end.

(** A trace keeps the connection discipline and leaves nothing open. *)
Definition scoped (t : list (Obs sysE)) : Prop := conn_after None t = Some None.

(** [p], started with [st] open, keeps the discipline whatever the
    environment answers, and ends in a state that satisfies [Q]. *)
Fixpoint scoped_from {R} (p : Prog sysE R) (st : option Conn)
    (Q : Outcome R → option Conn → Prop) : Prop :=
  match p with
  | Ret r => Q (Returned r) st
  | Stop a => Q (Halted a) st
  | Vis op k =>
      ∀ x, ∃ st', conn_step st (obs (op : Op sysE) x) = Some st' ∧ scoped_from (k x) st' Q
  end.

(** Nothing is open when the program ends, whatever its outcome. *)
Definition closed_on_return {R} : Outcome R → option Conn → Prop :=
  λ _ st, st = None.

(** The calls [Evaluate] may make on resource [s]. *)
Definition evaluate_call (s : ServiceResource) (op : sysOp) : Prop :=
  match op with
  | dbus_New | Conn_Close _ => True
  | Conn_GetUnitProperty _ unit propertyName =>
      unit = UnitName s ∧ (propertyName = "ActiveState" ∨ propertyName = "UnitFileState")
  | _ => False
  end.

(** The calls [Update] may make on resource [s]. *)
Definition update_call (s : ServiceResource) (op : sysOp) : Prop :=
  match op with
  | dbus_New | Conn_Close _ | Conn_Reload _ | log_Printf _ _ => True
  | Conn_GetUnitProperty _ unit propertyName =>
      unit = UnitName s ∧ propertyName = "UnitFileState"
  | Conn_EnableUnitFiles _ files runtime force =>
      files = [UnitName s] ∧ runtime = false ∧ force = false
  | Conn_DisableUnitFiles _ files runtime =>
      files = [UnitName s] ∧ runtime = false
  | _ => False
  end.

(** The log lines of [enableUnit] (with the destination) and of
    [disableUnit] (without) for the changes systemd reports. *)
Definition change_lines (s : ServiceResource) (with_destination : bool)
    (changes : list UnitFileChange) : list (Obs sysE) :=
  (λ change,
     if with_destination
     then obs (log_Printf "%s %s %s -> %s"
                 [str (ID s); str (ChangeType change); str (Filename change);
                  str (Destination change)] : Op sysE) tt
     else obs (log_Printf "%s %s %s"
                 [str (ID s); str (ChangeType change); str (Filename change)]
               : Op sysE) tt) <$> changes.

End resource_more.

(** * Scenarios for the task log *)
Module cluster_tasks.
Import etcdclient client cluster.

(** Decimal digits to a number. *)
Fixpoint digits (s : string) (acc : Z) : option Z :=
  match s with
  | EmptyString => Some acc
  | String c rest =>
      let n := Ascii.nat_of_ascii c in
      if decide (48 ≤ n ≤ 57)%nat then digits rest (10 * acc + Z.of_nat (n - 48))
      else None
  end.

#[export] Instance task_imports : TaskImports := {|
  strconv_ParseInt s :=
    match s with
    | EmptyString => inr (ErrorString "strconv.ParseInt: empty input: invalid syntax")
    | _ =>
        match digits s 0 with
        | Some n => inl n
        | None => inr (ErrorString "strconv.ParseInt: invalid syntax")
        end
    end;
  UnmarshalEtcdMinionTask node :=
    if decide (Value node = "") then ("", Some (ErrorString "unexpected end of JSON input"))
    else (Value node, None);
|}.

Definition job : string := "0a0b0c0d-0000-4000-8000-0000000000aa".

Definition d1 : Node := dir "/gru/minion/f0e1d2c3-0000-4000-8000-000000000001" [].
Definition d2 : Node := dir "/gru/minion/f0e1d2c3-0000-4000-8000-000000000002" [].
Definition log1 : Node :=
  leaf "/gru/minion/f0e1d2c3-0000-4000-8000-000000000001/log/0a0b0c0d-0000-4000-8000-0000000000aa"
    "uptime: 3 days".
Definition log2 : Node :=
  leaf "/gru/minion/f0e1d2c3-0000-4000-8000-000000000002/log/0a0b0c0d-0000-4000-8000-0000000000aa"
    "uptime: 40 days".

(** Two minions; both have logged the result of [job]. *)
Definition both_logged : Store :=
  mkStore
    (list_to_map
       [("/gru/minion", dir "/gru/minion" [d1; d2]);
        (Key d1, d1); (Key d2, d2); (Key log1, log1); (Key log2, log2);
        ("/gru/minion/f0e1d2c3-0000-4000-8000-000000000001/name", 
         leaf "/gru/minion/f0e1d2c3-0000-4000-8000-000000000001/name" "web01");
        ("/gru/minion/f0e1d2c3-0000-4000-8000-000000000001/lastseen",
         leaf "/gru/minion/f0e1d2c3-0000-4000-8000-000000000001/lastseen" "1446336000")])
    [].

(** Two minions; only the first has logged the result of [job]. *)
Definition one_logged : Store :=
  mkStore
    (list_to_map
       [("/gru/minion", dir "/gru/minion" [d1; d2]);
        (Key d1, d1); (Key d2, d2); (Key log1, log1)])
    [].

Definition pair_listing : Response.t := Response.mk "get" (dir "/gru/minion" [d1; d2]).

End cluster_tasks.
(** * Properties *)

(** ** Executions of sequenced programs *)
Section ProgFacts.
Context {E : Sig}.

Lemma exec_bind {R S} (p : Prog E R) (k : R → Prog E S) t o :
    exec (bind p k) t o ↔
      (∃ t1 r t2, t = t1 ++ t2 ∧ exec p t1 (Returned r) ∧ exec (k r) t2 o) ∨
      (∃ a, exec p t (Halted a) ∧ o = Halted a).
Proof.
    revert t. induction p as [r|op c IH|a]; intros t; simpl.
    - split.
      + intros Hk. left. exists [], r, t. auto.
      + intros [(t1 & r' & t2 & -> & [-> Hr] & Hk)|(a & [_ Hr] & _)].
        * simplify_eq. exact Hk.
        * discriminate.
    - split.
      + intros (x & t' & -> & Hx). apply IH in Hx as [(t1 & r & t2 & -> & Hp & Hk)|(a & Hp & ->)].
        * left. exists (obs op x :: t1), r, t2. split; [done|]. split; [|done].
          exists x, t1. done.
        * right. exists a. split; [|done]. exists x, t'. done.
      + intros [(t1 & r & t2 & -> & (x & t' & -> & Hp) & Hk)|(a & (x & t' & -> & Hp) & ->)].
        * exists x, (t' ++ t2). split; [done|]. apply IH. left. by exists t', r, t2.
        * exists x, t'. split; [done|]. apply IH. right. by exists a.
    - split.
      + intros [-> ->]. right. by exists a.
      + intros [(t1 & r & t2 & _ & [_ Hr] & _)|(a' & [-> Ha] & ->)]; [discriminate|].
        by simplify_eq.
Qed.

Lemma exec_call (op : Op E) t o :
    exec (call op) t o ↔ ∃ x, t = [obs op x] ∧ o = Returned x.
Proof.
    simpl. split.
    - intros (x & t' & -> & -> & ->). by exists x.
    - intros (x & -> & ->). by exists x, [].
Qed.

(** Every environment given as a function yields an execution. *)
Lemma run_exec {W R} (h : handler E W) (p : Prog E R) w :
    exec p (run h p w).2 (run h p w).1.1.
Proof.
    revert w. induction p as [r|op c IH|a]; intros w; simpl; [done| |done].
    destruct (h op w) as [x w1] eqn:Hh.
    specialize (IH x w1). destruct (run h (c x) w1) as [[o w2] t]. simpl in *.
    by exists x, t.
Qed.

Lemma run_bind {W R S} (h : handler E W) (p : Prog E R) (k : R → Prog E S) w :
    run h (bind p k) w =
      match run h p w with
      | (Returned r, w1, t1) =>
          let '(o, w2, t2) := run h (k r) w1 in (o, w2, t1 ++ t2)
      | (Halted a, w1, t1) => (Halted a, w1, t1)
      end.
Proof.
    revert w. induction p as [r|op c IH|a]; intros w; simpl.
    - by destruct (run h (k r) w) as [[o w2] t2].
    - destruct (h op w) as [x w1]. rewrite IH.
      destruct (run h (c x) w1) as [[[r|a] w2] t1]; [|done].
      by destruct (run h (k r) w2) as [[o w3] t2].
    - done.
Qed.

Lemma obs_op (op op' : Op E) x x' : obs op x = obs op' x' → op = op'.
Proof. intros Heq. exact (f_equal (@projT1 _ _) Heq). Qed.

Lemma obs_inj `{!EqDecision (Op E)} (op : Op E) x x' :
    obs op x = obs op x' → x = x'.
Proof.
    intros Heq. apply (Eqdep_dec.inj_pair2_eq_dec _ (λ a b, decide (a = b))) in Heq.
    exact Heq.
Qed.

Lemma answered_cons (op : Op E) (x : Ans E op) o t :
    answered (o :: t) op x ↔ o = obs op x ∨ answered t op x.
Proof.
    unfold answered. rewrite elem_of_cons.
    split; (intros [Ho|Ht]; [left; by symmetry|by right]).
Qed.

Lemma answered_nil (op : Op E) (x : Ans E op) : ¬ answered [] op x.
Proof. unfold answered. apply not_elem_of_nil. Qed.

Lemma answered_app (op : Op E) (x : Ans E op) t1 t2 :
    answered (t1 ++ t2) op x ↔ answered t1 op x ∨ answered t2 op x.
Proof. unfold answered. apply elem_of_app. Qed.

Lemma only_bind {R S} (P : Op E → Prop) (p : Prog E R) (k : R → Prog E S) :
    only P p → (∀ r, only P (k r)) → only P (bind p k).
Proof.
    intros Hp Hk. induction p as [r|op c IH|a]; simpl in *; [done| |done].
    destruct Hp as [Hop Hc]. split; [done|]. intros x. by apply IH.
Qed.

Lemma only_exec {R} (P : Op E → Prop) (p : Prog E R) t o :
    only P p → exec p t o → (∃ r, o = Returned r) ∧ Forall P (calls t).
Proof.
    revert t. induction p as [r|op c IH|a]; simpl; intros t Hp Hex; [| |done].
    - destruct Hex as [-> ->]. split; [by exists r|constructor].
    - destruct Hp as [Hop Hc]. destruct Hex as (x & t' & -> & Hex).
      destruct (IH x t' (Hc x) Hex) as [Hr Hall]. split; [done|].
      by constructor.
Qed.

Lemma within_bind {R S} (P : Op E → Prop) (p : Prog E R) (k : R → Prog E S) :
    within P p → (∀ r, within P (k r)) → within P (bind p k).
Proof.
    intros Hp Hk. induction p as [r|op c IH|a]; simpl in *; [done| |done].
    destruct Hp as [Hop Hc]. split; [done|]. intros x. by apply IH.
Qed.

Lemma within_exec {R} (P : Op E → Prop) (p : Prog E R) t o :
    within P p → exec p t o → Forall P (calls t).
Proof.
    revert t. induction p as [r|op c IH|a]; simpl; intros t Hp Hex.
    - destruct Hex as [-> _]. constructor.
    - destruct Hp as [Hop Hc]. destruct Hex as (x & t' & -> & Hex).
      constructor; [done|]. by eapply IH.
    - destruct Hex as [-> _]. constructor.
Qed.

Lemma answered_calls (op : Op E) (x : Ans E op) t :
    answered t op x → op ∈ calls t.
Proof.
    unfold answered, calls. intros Hin.
    apply list_elem_of_fmap. by exists (obs op x).
Qed.

End ProgFacts.

(** Inversion of an execution of a program whose shape is known: split
    sequences, name the answers, and case on what the code inspects. *)
Ltac exec_step :=
  match goal with
  | H : ∃ _, _ |- _ => destruct H as [? H]
  | H : _ ∧ _ |- _ => destruct H as [? ?]
  | H : exec (bind _ _) _ _ |- _ =>
      apply exec_bind in H as [(? & ? & ? & ? & ? & ?)|(? & ? & ?)]
  | H : exec (match ?x with _ => _ end) _ _ |- _ => destruct x eqn:?
  | H : exec (if ?x then _ else _) _ _ |- _ => destruct x eqn:?
  end.
Ltac exec_inv := repeat (simpl in *; simplify_eq; try exec_step).

(** Membership of an observation in an explicit trace. *)
Ltac obs_eq_inv H :=
  let Hop := fresh "Hop" in
  pose proof (obs_op _ _ _ _ H) as Hop;
  first [ discriminate Hop
        | inversion Hop; subst; clear Hop;
          apply obs_inj in H; simplify_eq ].
Ltac answered_inv H :=
  repeat (rewrite answered_app in H || rewrite answered_cons in H);
  repeat match type of H with
    | _ ∨ _ => destruct H as [H|H]
    | answered [] _ _ => destruct (answered_nil _ _ H)
    | obs _ _ = obs _ _ => obs_eq_inv H
    end.

(** Show that an observation occurs in an explicit trace. *)
Ltac in_trace :=
  unfold answered;
  solve [repeat first [apply list_elem_of_here | apply list_elem_of_further]].

Ltac in_run := unfold answered; vm_compute; in_trace.

(** ** The service resource *)
Section ServiceResource.
Import resource resource_spec.

Lemma exec_unitProperty s propertyName t o :
  exec (unitProperty s propertyName) t o →
  (∃ err, t = [obs (dbus_New : Op sysE) (inr err)] ∧ o = Returned (inr err)) ∨
  (∃ conn r,
      t = [obs (dbus_New : Op sysE) (inl conn);
           obs (Conn_GetUnitProperty conn (UnitName s) propertyName : Op sysE) r;
           obs (Conn_Close conn : Op sysE) tt] ∧
      o = Returned r).
Proof.
  unfold unitProperty, deferring. intros H. exec_inv.
  - right. eexists _, _. split; [|done]. by destruct x0.
  - left. by eexists.
Qed.

Lemma exec_assert_string v t o :
  exec (assert_string v) t o →
  t = [] ∧
  match v with
  | VString s => o = Returned s
  | _ => ∃ msg, o = Halted (panic msg)
  end.
Proof. destruct v; simpl; intros [-> ->]; eauto. Qed.

#[local] Opaque unitProperty.

Lemma unitProperty_returns s propertyName t a :
  ¬ exec (unitProperty s propertyName) t (Halted a).
Proof. intros [(? & _ & ?)|(? & ? & _ & ?)]%exec_unitProperty; discriminate. Qed.

#[local] Opaque unitProperty.

Lemma exec_unitIsEnabled s t o :
  exec (unitIsEnabled s) t o →
  ∃ r, exec (unitProperty s "UnitFileState") t (Returned r) ∧
    match r with
    | inr err => o = Returned (false, Some err)
    | inl unitState =>
        match Value unitState with
        | VString value => o = Returned (enablement value)
        | _ => ∃ msg, o = Halted (panic msg)
        end
    end.
Proof.
  unfold unitIsEnabled.
  intros [(t1 & r & t2 & -> & Hp & Hk)|(a & Hp & _)]%exec_bind;
    [|by apply unitProperty_returns in Hp].
  exists r. destruct r as [unitState|err]; simpl in Hk.
  - apply exec_bind in Hk as [(t3 & value & t4 & -> & Hv & Hk)|(a & Hv & ->)];
      apply exec_assert_string in Hv as [-> Hv]; rewrite ?app_nil_r.
    + assert (t4 = [] ∧ o = Returned (enablement value)) as [-> ->].
      { unfold enablement. repeat case_bool_decide; exact Hk. }
      rewrite !app_nil_r. split; [done|].
      destruct (Value unitState); [by simplify_eq|by destruct Hv..].
    + split; [done|].
      destruct (Value unitState); [discriminate Hv|destruct Hv as [msg [= ->]]; by exists msg..].
  - destruct Hk as [-> ->]. by rewrite app_nil_r.
Qed.

Lemma exec_Evaluate s t o :
  exec (Evaluate s) t o →
  ∃ t1 r1, exec (unitProperty s "ActiveState") t1 (Returned r1) ∧
    match r1 with
    | inr err =>
        t = t1 ∧
        o = Returned (State.mk StateUnknown (State (Base s)) false, Some err)
    | inl activeState =>
        match Value activeState with
        | VString value =>
            ∃ t2 o2, t = t1 ++ t2 ∧ exec (unitIsEnabled s) t2 o2 ∧
              match o2 with
              | Returned (enabled, None) =>
                  o = Returned
                        (State.mk (activation value) (State (Base s))
                           (negb (eqb (Enable s) enabled)), None)
              | Returned (_, Some err) =>
                  o = Returned
                        (State.mk (activation value) (State (Base s)) false,
                         Some err)
              | Halted a => o = Halted a
              end
        | _ => t = t1 ∧ ∃ msg, o = Halted (panic msg)
        end
    end.
Proof.
  unfold Evaluate.
  intros [(t1 & r & t2 & -> & Hp & Hk)|(a & Hp & _)]%exec_bind;
    [|by apply unitProperty_returns in Hp].
  exists t1, r. split; [done|]. destruct r as [activeState|err]; simpl in Hk.
  - apply exec_bind in Hk as [(t3 & value & t4 & -> & Hv & Hk)|(a & Hv & ->)];
      apply exec_assert_string in Hv as [-> Hv].
    + destruct (Value activeState) as [v| |]; [|by destruct Hv..].
      simplify_eq. exists t4.
      apply exec_bind in Hk as [(t5 & [enabled err] & t6 & -> & He & Hk)|(a & He & ->)].
      * exists (Returned (enabled, err)). 
        destruct err as [err|]; destruct Hk as [-> ->]; rewrite app_nil_r; (split; [done|]); (split; [done|]).
        -- unfold activation. by repeat case_bool_decide.
        -- unfold activation. repeat case_bool_decide; by destruct (eqb _ _).
      * by exists (Halted a).
    + rewrite app_nil_r.
      destruct (Value activeState); [discriminate Hv|destruct Hv as [msg [= ->]]; eauto..].
  - destruct Hk as [-> ->]. by rewrite app_nil_r.
Qed.
(** The one property read of an execution of [unitProperty]. *)
Lemma answered_unitProperty s propertyName t o conn unit propertyName' x :
  exec (unitProperty s propertyName) t o →
  answered t (Conn_GetUnitProperty conn unit propertyName' : Op sysE) x →
  propertyName' = propertyName ∧ unit = UnitName s ∧ o = Returned x.
Proof.
  intros [(err & -> & ->)|(conn' & r & -> & ->)]%exec_unitProperty Ha;
    answered_inv Ha.
  done.
Qed.

Lemma answered_unitIsEnabled s t o conn unit propertyName x :
  exec (unitIsEnabled s) t o →
  answered t (Conn_GetUnitProperty conn unit propertyName : Op sysE) x →
  propertyName = "UnitFileState" ∧ unit = UnitName s ∧
  match x with
  | inr err => o = Returned (false, Some err)
  | inl unitState =>
      match Value unitState with
      | VString value => o = Returned (enablement value)
      | _ => ∃ msg, o = Halted (panic msg)
      end
  end.
Proof.
  intros (r & Hp & Ho)%exec_unitIsEnabled Ha.
  destruct (answered_unitProperty _ _ _ _ _ _ _ _ Hp Ha) as (-> & -> & [= ->]).
  done.
Qed.

Lemma running_not_stopped value :
  value ∈ running_values → value ∈ stopped_values → False.
Proof.
  unfold running_values, stopped_values. rewrite !elem_of_cons, !elem_of_nil.
  intros [->|[->|[->|[]]]] [?|[?|[?|[]]]]; discriminate.
Qed.

(** C6.  Whatever string systemd reports as [ActiveState] of the unit,
    the state returned by [Evaluate] has [Current = StateRunning] exactly
    for "active", "reloading" and "activating", [Current = StateStopped]
    exactly for "inactive", "failed" and "deactivating", and
    [Current = StateUnknown] for every other string. *)
Theorem Evaluate_Current_follows_ActiveState s t st err conn name value :
  exec (Evaluate s) t (Returned (st, err)) →
  answered t (Conn_GetUnitProperty conn (UnitName s) "ActiveState" : Op sysE)
    (inl (mkProperty name (VString value))) →
  (State.Current st = StateRunning ↔
     value ∈ ["active"; "reloading"; "activating"]) ∧
  (State.Current st = StateStopped ↔
     value ∈ ["inactive"; "failed"; "deactivating"]) ∧
  (State.Current st = StateUnknown ↔
     (value ∉ ["active"; "reloading"; "activating"]) ∧
     (value ∉ ["inactive"; "failed"; "deactivating"])).
Proof.
  intros (t1 & r1 & Hp & Hr)%exec_Evaluate Ha.
  assert (r1 = inl (mkProperty name (VString value)) ∧
          State.Current st = activation value) as [-> ->].
  { destruct r1 as [activeState|err1].
    - destruct (Value activeState) as [v| |] eqn:Hv.
      + destruct Hr as (t2 & o2 & -> & He & Ho).
        apply answered_app in Ha as [Ha|Ha].
        * destruct (answered_unitProperty _ _ _ _ _ _ _ _ Hp Ha) as (_ & _ & [= ->]).
          simpl in Hv. simplify_eq.
          destruct o2 as [[enabled [e|]]|a]; by simplify_eq.
        * by destruct (answered_unitIsEnabled _ _ _ _ _ _ _ He Ha) as ([=] & _).
      + destruct Hr as (-> & msg & [=]).
      + destruct Hr as (-> & msg & [=]).
    - destruct Hr as [-> _].
      by destruct (answered_unitProperty _ _ _ _ _ _ _ _ Hp Ha) as (_ & _ & [=]). }
  clear. unfold activation.
  change ["active"; "reloading"; "activating"] with running_values.
  change ["inactive"; "failed"; "deactivating"] with stopped_values.
  pose proof (running_not_stopped value).
  repeat case_bool_decide; intuition (try done; try congruence).
Qed.

Lemma enablement_cases value :
  match enablement value with
  | (enabled, None) =>
      (value ∈ enabled_values ∨ value ∈ disabled_values) ∧
      enabled = bool_decide (value ∈ enabled_values)
  | (enabled, Some err) =>
      (value ∉ enabled_values) ∧ (value ∉ disabled_values) ∧
      enabled = false ∧ err = errors_New "Invalid unit state"
  end.
Proof. unfold enablement. repeat case_bool_decide; auto. Qed.

(** The [UnitFileState] read of an execution of [Evaluate], and what the
    execution returns given its answer. *)
Lemma answered_Evaluate_UnitFileState s t o conn x :
  exec (Evaluate s) t o →
  answered t (Conn_GetUnitProperty conn (UnitName s) "UnitFileState" : Op sysE) x →
  ∃ current,
    match x with
    | inr err => o = Returned (State.mk current (State (Base s)) false, Some err)
    | inl unitState =>
        match Value unitState with
        | VString value =>
            match enablement value with
            | (enabled, None) =>
                o = Returned
                      (State.mk current (State (Base s))
                         (negb (eqb (Enable s) enabled)), None)
            | (_, Some err) =>
                o = Returned (State.mk current (State (Base s)) false, Some err)
            end
        | _ => ∃ msg, o = Halted (panic msg)
        end
    end.
Proof.
  intros (t1 & r1 & Hp & Hr)%exec_Evaluate Ha.
  destruct r1 as [activeState|err1].
  - destruct (Value activeState) as [v| |] eqn:Hv.
    + destruct Hr as (t2 & o2 & -> & He & Ho).
      exists (activation v).
      apply answered_app in Ha as [Ha|Ha].
      * by destruct (answered_unitProperty _ _ _ _ _ _ _ _ Hp Ha) as ([=] & _).
      * destruct (answered_unitIsEnabled _ _ _ _ _ _ _ He Ha) as (_ & _ & Hx).
        destruct x as [unitState|err]; [|by subst].
        destruct (Value unitState); [|destruct Hx as [msg ->]; eauto..].
        subst o2. by destruct (enablement s0) as [enabled [err|]].
    + destruct Hr as [-> _].
      by destruct (answered_unitProperty _ _ _ _ _ _ _ _ Hp Ha) as ([=] & _).
    + destruct Hr as [-> _].
      by destruct (answered_unitProperty _ _ _ _ _ _ _ _ Hp Ha) as ([=] & _).
  - destruct Hr as [-> _].
    by destruct (answered_unitProperty _ _ _ _ _ _ _ _ Hp Ha) as ([=] & _).
Qed.

(** C2.  When [Evaluate] returns without error, the execution has read
    the unit's [UnitFileState]; the string read is one of the recognised
    ones, and [Update] is true exactly when the declared [Enable] flag
    differs from the enablement that string stands for.  The [ActiveState]
    answer does not occur in the condition. *)
Theorem Evaluate_Update_iff_enablement_differs s t st :
  exec (Evaluate s) t (Returned (st, None)) →
  (∃ conn name value,
      answered t (Conn_GetUnitProperty conn (UnitName s) "UnitFileState" : Op sysE)
        (inl (mkProperty name (VString value)))) ∧
  (∀ conn name value,
      answered t (Conn_GetUnitProperty conn (UnitName s) "UnitFileState" : Op sysE)
        (inl (mkProperty name (VString value))) →
      (value ∈ ["enabled"; "static"; "enabled-runtime"; "linked"; "linked-runtime"] ∨
       value ∈ ["disabled"; "masked"; "masked-runtime"]) ∧
      (State.Update st = true ↔
         Enable s ≠ bool_decide
           (value ∈ ["enabled"; "static"; "enabled-runtime"; "linked";
                     "linked-runtime"]))).
Proof.
  intros Hex. split.
  - apply exec_Evaluate in Hex as (t1 & r1 & Hp & Hr).
    destruct r1 as [activeState|err1]; [|by destruct Hr as [_ [=]]].
    destruct (Value activeState) as [v| |]; [|by destruct Hr as (_ & msg & [=])..].
    destruct Hr as (t2 & o2 & -> & He & Ho).
    apply exec_unitIsEnabled in He as (r & Hr & Ho2).
    apply exec_unitProperty in Hr as [(err & -> & [= ->])|(conn & r' & -> & [= ->])].
    { subst o2. discriminate Ho. }
    destruct r' as [[name [value| |]]|err]; simpl in Ho2.
    + exists conn, name, value. apply answered_app. right.
      apply answered_cons. right. apply answered_cons. by left.
    + destruct Ho2 as [msg ->]. discriminate Ho.
    + destruct Ho2 as [msg ->]. discriminate Ho.
    + subst o2. discriminate Ho.
  - intros conn name value Ha.
    destruct (answered_Evaluate_UnitFileState _ _ _ _ _ Hex Ha) as (current & Ho).
    simpl in Ho. pose proof (enablement_cases value) as Hc.
    destruct (enablement value) as [enabled [err|]]; [discriminate Ho|].
    destruct Hc as [Hc ->]. split; [done|]. injection Ho as ->. simpl.
    unfold enabled_values. destruct (Enable s), (bool_decide _); simpl; split; done.
Qed.

(** C5.  A [UnitFileState] string outside the recognised ones makes
    [unitIsEnabled] return the error "Invalid unit state" (with [false],
    never [false] alone), and [Evaluate] returns that same error. *)
Theorem unrecognized_UnitFileState_is_an_error s conn name value :
  value ∉ ["enabled"; "static"; "enabled-runtime"; "linked"; "linked-runtime"] →
  value ∉ ["disabled"; "masked"; "masked-runtime"] →
  (∀ t o,
      exec (unitIsEnabled s) t o →
      answered t (Conn_GetUnitProperty conn (UnitName s) "UnitFileState" : Op sysE)
        (inl (mkProperty name (VString value))) →
      o = Returned (false, Some (errors_New "Invalid unit state"))) ∧
  (∀ t o,
      exec (Evaluate s) t o →
      answered t (Conn_GetUnitProperty conn (UnitName s) "UnitFileState" : Op sysE)
        (inl (mkProperty name (VString value))) →
      ∃ st, o = Returned (st, Some (errors_New "Invalid unit state"))).
Proof.
  intros Hne Hnd.
  assert (enablement value = (false, Some (errors_New "Invalid unit state"))) as Hen.
  { unfold enablement. by rewrite !bool_decide_eq_false_2. }
  split; intros t o Hex Ha.
  - destruct (answered_unitIsEnabled _ _ _ _ _ _ _ Hex Ha) as (_ & _ & Ho).
    simpl in Ho. by rewrite Hen in Ho.
  - destruct (answered_Evaluate_UnitFileState _ _ _ _ _ Hex Ha) as (current & Ho).
    simpl in Ho. rewrite Hen in Ho. eauto.
Qed.

(** *** Create and Delete *)

Lemma exec_Create s t o :
  exec (Create s) t o →
  (∃ err, t = [obs (dbus_New : Op sysE) (inr err)] ∧ o = Returned (Some err)) ∨
  (∃ conn err,
      t = [obs (dbus_New : Op sysE) (inl conn);
           obs (log_Printf "%s starting service" [str (ID s)] : Op sysE) tt;
           obs (Conn_StartUnit conn (UnitName s) "replace" : Op sysE) (inr err);
           obs (Conn_Close conn : Op sysE) tt] ∧
      o = Returned (Some err)) ∨
  (∃ conn jobID result,
      t = [obs (dbus_New : Op sysE) (inl conn);
           obs (log_Printf "%s starting service" [str (ID s)] : Op sysE) tt;
           obs (Conn_StartUnit conn (UnitName s) "replace" : Op sysE) (inl jobID);
           obs (recv_result : Op sysE) result;
           obs (log_Printf "%s systemd job id %d result: %s"
                  [str (ID s); int jobID; str result] : Op sysE) tt;
           obs (Conn_Close conn : Op sysE) tt] ∧
      o = Returned None).
Proof.
  unfold Create, deferring. intros H. exec_inv.
  - right. right. eexists _, _, _. split; [|done]. by repeat match goal with u : () |- _ => destruct u end.
  - right. left. eexists _, _. split; [|done]. by repeat match goal with u : () |- _ => destruct u end.
  - left. by eexists.
Qed.

Lemma exec_Delete s t o :
  exec (Delete s) t o →
  (∃ err, t = [obs (dbus_New : Op sysE) (inr err)] ∧ o = Returned (Some err)) ∨
  (∃ conn err,
      t = [obs (dbus_New : Op sysE) (inl conn);
           obs (log_Printf "%s stopping service" [str (ID s)] : Op sysE) tt;
           obs (Conn_StopUnit conn (UnitName s) "replace" : Op sysE) (inr err);
           obs (Conn_Close conn : Op sysE) tt] ∧
      o = Returned (Some err)) ∨
  (∃ conn jobID result,
      t = [obs (dbus_New : Op sysE) (inl conn);
           obs (log_Printf "%s stopping service" [str (ID s)] : Op sysE) tt;
           obs (Conn_StopUnit conn (UnitName s) "replace" : Op sysE) (inl jobID);
           obs (recv_result : Op sysE) result;
           obs (log_Printf "%s systemd job id %d result: %s"
                  [str (ID s); int jobID; str result] : Op sysE) tt;
           obs (Conn_Close conn : Op sysE) tt] ∧
      o = Returned None).
Proof.
  unfold Delete, deferring. intros H. exec_inv.
  - right. right. eexists _, _, _. split; [|done]. by repeat match goal with u : () |- _ => destruct u end.
  - right. left. eexists _, _. split; [|done]. by repeat match goal with u : () |- _ => destruct u end.
  - left. by eexists.
Qed.

(** C9.  Once the connection is up and the start (stop) job is submitted
    without error, [Create] ([Delete]) receives the job result from the
    result channel, writes it to the log and returns nil: whatever string
    the channel delivers, "failed" included, is only logged.  Such an
    execution exists for every result string. *)
Theorem Create_Delete_return_nil_whatever_the_job_result s conn jobID :
  ((∀ t o,
       exec (Create s) t o →
       answered t (dbus_New : Op sysE) (inl conn) →
       answered t (Conn_StartUnit conn (UnitName s) "replace" : Op sysE) (inl jobID) →
       o = Returned None ∧
       (∃ result, answered t (recv_result : Op sysE) result) ∧
       ∀ result,
         answered t (recv_result : Op sysE) result →
         answered t (log_Printf "%s systemd job id %d result: %s"
                       [str (ID s); int jobID; str result] : Op sysE) tt) ∧
   (∀ result, ∃ t,
       exec (Create s) t (Returned None) ∧
       answered t (dbus_New : Op sysE) (inl conn) ∧
       answered t (Conn_StartUnit conn (UnitName s) "replace" : Op sysE) (inl jobID) ∧
       answered t (recv_result : Op sysE) result)) ∧
  ((∀ t o,
       exec (Delete s) t o →
       answered t (dbus_New : Op sysE) (inl conn) →
       answered t (Conn_StopUnit conn (UnitName s) "replace" : Op sysE) (inl jobID) →
       o = Returned None ∧
       (∃ result, answered t (recv_result : Op sysE) result) ∧
       ∀ result,
         answered t (recv_result : Op sysE) result →
         answered t (log_Printf "%s systemd job id %d result: %s"
                       [str (ID s); int jobID; str result] : Op sysE) tt) ∧
   (∀ result, ∃ t,
       exec (Delete s) t (Returned None) ∧
       answered t (dbus_New : Op sysE) (inl conn) ∧
       answered t (Conn_StopUnit conn (UnitName s) "replace" : Op sysE) (inl jobID) ∧
       answered t (recv_result : Op sysE) result)).
Proof.
  split; split.
  - intros t o Hex Hc Hs.
    apply exec_Create in Hex
      as [(err & -> & ->)|[(c & err & -> & ->)|(c & j & res & -> & ->)]];
      answered_inv Hs.
    split; [done|]. split; [exists res; in_trace|].
    intros result Hr. answered_inv Hr. in_trace.
  - intros result.
    exists [obs (dbus_New : Op sysE) (inl conn);
            obs (log_Printf "%s starting service" [str (ID s)] : Op sysE) tt;
            obs (Conn_StartUnit conn (UnitName s) "replace" : Op sysE) (inl jobID);
            obs (recv_result : Op sysE) result;
            obs (log_Printf "%s systemd job id %d result: %s"
                   [str (ID s); int jobID; str result] : Op sysE) tt;
            obs (Conn_Close conn : Op sysE) tt].
    split; [|split_and!; in_trace].
    unfold Create, deferring.
    repeat (simpl; eexists _, _; split; [reflexivity|]). done.
  - intros t o Hex Hc Hs.
    apply exec_Delete in Hex
      as [(err & -> & ->)|[(c & err & -> & ->)|(c & j & res & -> & ->)]];
      answered_inv Hs.
    split; [done|]. split; [exists res; in_trace|].
    intros result Hr. answered_inv Hr. in_trace.
  - intros result.
    exists [obs (dbus_New : Op sysE) (inl conn);
            obs (log_Printf "%s stopping service" [str (ID s)] : Op sysE) tt;
            obs (Conn_StopUnit conn (UnitName s) "replace" : Op sysE) (inl jobID);
            obs (recv_result : Op sysE) result;
            obs (log_Printf "%s systemd job id %d result: %s"
                   [str (ID s); int jobID; str result] : Op sysE) tt;
            obs (Conn_Close conn : Op sysE) tt].
    split; [|split_and!; in_trace].
    unfold Delete, deferring.
    repeat (simpl; eexists _, _; split; [reflexivity|]). done.
Qed.

(** *** Update *)

Lemma log_changes_only s with_destination changes :
  only writes_only (log_changes s with_destination changes).
Proof.
  induction changes as [|change rest IH]; simpl; [done|].
  destruct with_destination; simpl; split; done.
Qed.

Lemma enableUnit_only s : only writes_only (enableUnit s).
Proof.
  unfold enableUnit, deferring. simpl. split; [done|].
  intros [conn|err]; simpl; [|done]. split; [done|]. intros _. split; [done|].
  intros [[? changes]|err]; simpl; [|done].
  apply only_bind; [|done]. apply only_bind; [apply log_changes_only|done].
Qed.

Lemma disableUnit_only s : only writes_only (disableUnit s).
Proof.
  unfold disableUnit, deferring. simpl. split; [done|].
  intros [conn|err]; simpl; [|done]. split; [done|]. intros _. split; [done|].
  intros [changes|err]; simpl; [|done].
  apply only_bind; [|done]. apply only_bind; [apply log_changes_only|done].
Qed.

Lemma daemonReload_only s : only writes_only (daemonReload s).
Proof.
  unfold daemonReload, deferring. simpl. split; [done|].
  intros [conn|err]; simpl; done.
Qed.

Lemma writes_only_no_property_read t conn unit propertyName x :
  Forall writes_only (calls t) →
  ¬ answered t (Conn_GetUnitProperty conn unit propertyName : Op sysE) x.
Proof.
  intros Hall Ha%answered_calls.
  rewrite Forall_forall in Hall. exact (Hall _ Ha).
Qed.

(** [Update] after the enablement was read as a recognised string. *)
Lemma Update_after_observation s t o conn name value :
  exec (Update s) t o →
  answered t (Conn_GetUnitProperty conn (UnitName s) "UnitFileState" : Op sysE)
    (inl (mkProperty name (VString value))) →
  value ∈ enabled_values ∨ value ∈ disabled_values →
  let enabled := bool_decide (value ∈ enabled_values) in
  ∃ t0 t1 e1 t2 r,
    t = t0 ++ t1 ++ t2 ∧
    exec (unitIsEnabled s) t0 (Returned (enabled, None)) ∧
    exec (if Enable s && negb enabled then enableUnit s else disableUnit s)
      t1 (Returned e1) ∧
    exec (daemonReload s) t2 (Returned r) ∧
    o = Returned r.
Proof.
  intros Hex Ha Hrec enabled. unfold Update in Hex.
  assert (enablement value = (enabled, None)) as Hen.
  { pose proof (enablement_cases value) as Hc.
    destruct (enablement value) as [en [err|]].
    - destruct Hc as (? & ? & _). by destruct Hrec.
    - by destruct Hc as [_ ->]. }
  assert (∀ b, only writes_only
                 (if Enable s && negb b then enableUnit s else disableUnit s)) as Hstep.
  { intros b. destruct (_ && _); [apply enableUnit_only|apply disableUnit_only]. }
  apply exec_bind in Hex as [(t0 & [en err] & t' & -> & He & Hk)|(a & He & ->)].
  - destruct err as [err|].
    + destruct Hk as [-> _]. rewrite app_nil_r in Ha.
      destruct (answered_unitIsEnabled _ _ _ _ _ _ _ He Ha) as (_ & _ & Ho).
      simpl in Ho. rewrite Hen in Ho. discriminate Ho.
    + apply exec_bind in Hk as [(t1 & e1 & t2 & -> & H1 & H2)|(a & H1 & ->)].
      * destruct (only_exec _ _ _ _ (Hstep _) H1) as [_ Hc1].
        destruct (only_exec _ _ _ _ (daemonReload_only s) H2) as [[r ->] Hc2].
        assert (en = enabled) as ->.
        { rewrite !answered_app in Ha. destruct Ha as [Ha|[Ha|Ha]].
          - destruct (answered_unitIsEnabled _ _ _ _ _ _ _ He Ha) as (_ & _ & Ho).
            simpl in Ho. rewrite Hen in Ho. by injection Ho.
          - by apply writes_only_no_property_read in Ha.
          - by apply writes_only_no_property_read in Ha. }
        by exists t0, t1, e1, t2, r.
      * by destruct (only_exec _ _ _ _ (Hstep _) H1) as [[r [=]] _].
  - destruct (answered_unitIsEnabled _ _ _ _ _ _ _ He Ha) as (_ & _ & Ho).
    simpl in Ho. rewrite Hen in Ho. discriminate Ho.
Qed.

Lemma exec_daemonReload s t o :
  exec (daemonReload s) t o →
  (∃ err, t = [obs (dbus_New : Op sysE) (inr err)] ∧ o = Returned (Some err)) ∨
  (∃ conn err,
      t = [obs (dbus_New : Op sysE) (inl conn);
           obs (Conn_Reload conn : Op sysE) err;
           obs (Conn_Close conn : Op sysE) tt] ∧
      o = Returned err).
Proof.
  unfold daemonReload, deferring. intros H. exec_inv.
  - right. eexists _, _. split; [|done].
    by repeat match goal with u : () |- _ => destruct u end.
  - left. by eexists.
Qed.

(** C3, as the code has it.  [Update] first observes the enablement of
    the unit.  If that fails it returns the error at once, with no further
    call.  Otherwise it runs [enableUnit] when the declared flag is set and
    the unit is observed disabled, and [disableUnit] in every other case;
    whatever that step returns ([e1], possibly an error), [daemonReload]
    runs next, and what [Update] returns is what [daemonReload] returned. *)
Theorem Update_enables_or_disables_then_reloads s t r :
  exec (Update s) t (Returned r) →
  ∃ t0 enabled failure,
    exec (unitIsEnabled s) t0 (Returned (enabled, failure)) ∧
    match failure with
    | Some err => t = t0 ∧ r = Some err
    | None =>
        ∃ t1 e1 t2,
          t = t0 ++ t1 ++ t2 ∧
          exec (if Enable s && negb enabled then enableUnit s else disableUnit s)
            t1 (Returned e1) ∧
          exec (daemonReload s) t2 (Returned r)
    end.
Proof.
  unfold Update.
  intros [(t0 & [enabled failure] & t' & -> & He & Hk)|(a & _ & [=])]%exec_bind.
  exists t0, enabled, failure. split; [done|].
  destruct failure as [err|].
  - destruct Hk as [-> [= <-]]. by rewrite app_nil_r.
  - apply exec_bind in Hk as [(t1 & e1 & t2 & -> & H1 & H2)|(a & _ & [=])].
    by exists t1, e1, t2.
Qed.

(** *** NewServiceResource *)

(** C10.  When the declarative object decodes, [NewServiceResource] returns
    a resource and a nil error whatever [mergo.Merge] returned as its error;
    the resource is the merged one with [UnitName] set to its [Name]
    followed by ".service". *)
Theorem NewServiceResource_ignores_merge_error `{Imports} (obj : ObjectItem) decoded :
  hcl_DecodeObject obj = inl decoded →
  let defaults :=
    mkServiceResource (mkBaseResource "" "service" StateRunning) false "" in
  let merged := (mergo_Merge decoded defaults).1 in
  ∃ s,
    NewServiceResource obj = (Some s, None) ∧
    UnitName s = Name (Base s) +:+ ".service" ∧
    Base s = Base merged ∧ Enable s = Enable merged ∧
    (Name (Base merged) = Name (Base decoded) →
     UnitName s = Name (Base decoded) +:+ ".service").
Proof.
  intros Hdec defaults merged.
  unfold NewServiceResource, serviceResourceType. rewrite Hdec.
  subst merged defaults.
  destruct (mergo_Merge decoded _) as [s err]. simpl.
  eexists. split; [done|]. simpl. split_and!; [done..|]. by intros ->.
Qed.

(** *** The theorems on concrete hosts *)
Import scenario.

Lemma Evaluate_Current_follows_ActiveState_witness :
  let t := (run systemd (Evaluate nginx) (host "inactive" "disabled")).2 in
  exec (Evaluate nginx) t (Returned (State.mk StateStopped StateRunning true, None)) ∧
  answered t (Conn_GetUnitProperty 1 "nginx.service" "ActiveState" : Op sysE)
    (inl (mkProperty "ActiveState" (VString "inactive"))) ∧
  (StateStopped = StateStopped ↔ "inactive" ∈ ["inactive"; "failed"; "deactivating"]).
Proof.
  intros t.
  assert (exec (Evaluate nginx) t
            (Returned (State.mk StateStopped StateRunning true, None))) as Hex.
  { exact (run_exec systemd (Evaluate nginx) (host "inactive" "disabled")). }
  assert (answered t (Conn_GetUnitProperty 1 "nginx.service" "ActiveState" : Op sysE)
            (inl (mkProperty "ActiveState" (VString "inactive")))) as Ha.
  { in_run. }
  split; [exact Hex|]. split; [exact Ha|].
  exact (proj1 (proj2
    (Evaluate_Current_follows_ActiveState nginx t _ None 1 "ActiveState" "inactive"
       Hex Ha))).
Defined.

Lemma Evaluate_Update_iff_enablement_differs_witness :
  let t := (run systemd (Evaluate nginx) (host "active" "disabled")).2 in
  exec (Evaluate nginx) t (Returned (State.mk StateRunning StateRunning true, None)) ∧
  ∃ conn name value,
    answered t (Conn_GetUnitProperty conn "nginx.service" "UnitFileState" : Op sysE)
      (inl (mkProperty name (VString value))).
Proof.
  intros t.
  assert (exec (Evaluate nginx) t
            (Returned (State.mk StateRunning StateRunning true, None))) as Hex.
  { exact (run_exec systemd (Evaluate nginx) (host "active" "disabled")). }
  split; [exact Hex|].
  exact (proj1 (Evaluate_Update_iff_enablement_differs nginx t _ Hex)).
Defined.

Lemma unrecognized_UnitFileState_is_an_error_witness :
  ("indirect" ∉ ["enabled"; "static"; "enabled-runtime"; "linked"; "linked-runtime"]) ∧
  ("indirect" ∉ ["disabled"; "masked"; "masked-runtime"]) ∧
  ∃ st, (run systemd (Evaluate nginx) (host "active" "indirect")).1.1
        = Returned (st, Some (errors_New "Invalid unit state")).
Proof.
  assert ("indirect" ∉ ["enabled"; "static"; "enabled-runtime"; "linked";
                        "linked-runtime"]) as Hne.
  { apply (bool_decide_unpack _). vm_compute. exact I. }
  assert ("indirect" ∉ ["disabled"; "masked"; "masked-runtime"]) as Hnd.
  { apply (bool_decide_unpack _). vm_compute. exact I. }
  split; [exact Hne|]. split; [exact Hnd|].
  apply (proj2 (unrecognized_UnitFileState_is_an_error nginx 1 "UnitFileState"
                  "indirect" Hne Hnd)
           (run systemd (Evaluate nginx) (host "active" "indirect")).2).
  - exact (run_exec systemd (Evaluate nginx) (host "active" "indirect")).
  - in_run.
Defined.

Lemma Create_Delete_return_nil_whatever_the_job_result_witness :
  let tc := (run systemd (Create nginx) (failing_host "inactive" "enabled")).2 in
  let td := (run systemd (Delete nginx) (failing_host "active" "enabled")).2 in
  (exec (Create nginx) tc (Returned None) ∧
   answered tc (recv_result : Op sysE) "failed" ∧
   answered tc (log_Printf "%s systemd job id %d result: %s"
                  [str (ID nginx); int 42; str "failed"] : Op sysE) tt) ∧
  (exec (Delete nginx) td (Returned None) ∧
   answered td (recv_result : Op sysE) "failed" ∧
   answered td (log_Printf "%s systemd job id %d result: %s"
                  [str (ID nginx); int 43; str "failed"] : Op sysE) tt).
Proof.
  intros tc td.
  assert (exec (Create nginx) tc (Returned None)) as Hc.
  { exact (run_exec systemd (Create nginx) (failing_host "inactive" "enabled")). }
  assert (exec (Delete nginx) td (Returned None)) as Hd.
  { exact (run_exec systemd (Delete nginx) (failing_host "active" "enabled")). }
  assert (answered tc (recv_result : Op sysE) "failed") as Hrc. { in_run. }
  assert (answered td (recv_result : Op sysE) "failed") as Hrd. { in_run. }
  split.
  - split; [exact Hc|]. split; [exact Hrc|].
    refine (proj2 (proj2
      (proj1 (proj1 (Create_Delete_return_nil_whatever_the_job_result nginx 1 42))
         tc (Returned None) Hc _ _)) "failed" Hrc); in_run.
  - split; [exact Hd|]. split; [exact Hrd|].
    refine (proj2 (proj2
      (proj1 (proj2 (Create_Delete_return_nil_whatever_the_job_result nginx 1 43))
         td (Returned None) Hd _ _)) "failed" Hrd); in_run.
Defined.

Lemma Update_enables_or_disables_then_reloads_witness :
  let t := (run systemd (Update nginx) (failing_host "active" "disabled")).2 in
  exec (Update nginx) t (Returned None) ∧
  ∃ t0 enabled failure,
    exec (unitIsEnabled nginx) t0 (Returned (enabled, failure)) ∧
    match failure with
    | Some err => t = t0 ∧ None = Some err
    | None =>
        ∃ t1 e1 t2,
          t = t0 ++ t1 ++ t2 ∧
          exec (if Enable nginx && negb enabled
                then enableUnit nginx else disableUnit nginx) t1 (Returned e1) ∧
          exec (daemonReload nginx) t2 (Returned None)
    end.
Proof.
  intros t.
  assert (exec (Update nginx) t (Returned None)) as Hex.
  { exact (run_exec systemd (Update nginx) (failing_host "active" "disabled")). }
  split; [exact Hex|].
  exact (Update_enables_or_disables_then_reloads nginx t None Hex).
Defined.

(** On that host the enable step fails, and [Update] still returns nil. *)
Example enable_failure_is_not_propagated :
  (run systemd (enableUnit nginx) (failing_host "active" "disabled")).1.1
  = Returned (Some (ErrorString "Access denied")) ∧
  (run systemd (Update nginx) (failing_host "active" "disabled")).1.1
  = Returned None.
Proof. vm_compute. done. Qed.

(** The claim that [Update] always ends with a daemon reload whose error
    it returns fails when the enablement cannot be observed: with the
    [UnitFileState] "indirect", [Update] returns "Invalid unit state" after
    the property read, and nothing is reloaded. *)
Lemma Update_always_reloads_counterexample :
  ¬ (∀ s t r,
        exec (Update s) t (Returned r) →
        ∃ t1 t2, t = t1 ++ t2 ∧ exec (daemonReload s) t2 (Returned r)).
Proof.
  intros Hclaim.
  destruct (Hclaim nginx _ _ (run_exec systemd (Update nginx) (host "active" "indirect")))
    as (t1 & t2 & Ht & Hreload).
  apply (f_equal calls) in Ht. unfold calls in Ht. rewrite fmap_app in Ht.
  assert (projT1 <$> (run systemd (Update nginx) (host "active" "indirect")).2
          = [dbus_New; Conn_GetUnitProperty 1 "nginx.service" "UnitFileState";
             Conn_Close 1]) as Hcalls by (vm_compute; reflexivity).
  rewrite Hcalls in Ht. clear Hcalls.
  generalize dependent (projT1 <$> t1). intros l Ht.
  apply exec_daemonReload in Hreload as [(err & -> & _)|(conn & err & -> & _)];
    destruct l as [|? [|? [|? [|? ?]]]]; discriminate Ht.
Qed.

Lemma NewServiceResource_ignores_merge_error_witness :
  @hcl_DecodeObject attributes [("name", "nginx"); ("enable", "true")]
    = inl (mkServiceResource (mkBaseResource "nginx" "" StateUnknown) true "") ∧
  (@mergo_Merge attributes (mkServiceResource (mkBaseResource "nginx" "" StateUnknown) true "")
     (mkServiceResource (mkBaseResource "" "service" StateRunning) false "")).2
    = Some (ErrorString "src and dst must be of same type") ∧
  ∃ s, @NewServiceResource attributes [("name", "nginx"); ("enable", "true")] = (Some s, None) ∧
       UnitName s = "nginx.service".
Proof.
  assert (@hcl_DecodeObject attributes [("name", "nginx"); ("enable", "true")]
            = inl (mkServiceResource (mkBaseResource "nginx" "" StateUnknown) true ""))
    as Hdec.
  { vm_compute. reflexivity. }
  split; [exact Hdec|]. split; [reflexivity|].
  destruct (@NewServiceResource_ignores_merge_error attributes _ _ Hdec)
    as (s & Hs & Hunit & Hbase & _).
  exists s. split; [exact Hs|].
  rewrite Hunit, Hbase. reflexivity.
Defined.
End ServiceResource.

(** ** The etcd minion client *)
Section Client.
Import etcdclient client client_spec.
Context `{UUIDPackage} `{Imports}.

(** *** GetAllClassifiers *)

Lemma decode_nodes_spec nodes classifiers :
  let decoded node := (json_Unmarshal (Value node)).1 in
  let failure node := (json_Unmarshal (Value node)).2 in
  match decode_nodes nodes classifiers with
  | (result, None) =>
      Forall (λ node, failure node = None) nodes ∧
      result = classifiers ++ (decoded <$> nodes)
  | (result, Some err) =>
      ∃ before node after,
        nodes = before ++ node :: after ∧
        Forall (λ node, failure node = None) before ∧
        failure node = Some err ∧
        result = classifiers ++ (decoded <$> before)
  end.
Proof.
  intros decoded failure. revert classifiers.
  induction nodes as [|node rest IH]; intros classifiers; simpl.
  - split; [constructor|]. by rewrite app_nil_r.
  - destruct (json_Unmarshal (Value node)) as [klassifier [err|]] eqn:Hnode.
    + exists [], node, rest. split; [done|]. split; [constructor|].
      split; [by subst failure; simpl; rewrite Hnode|]. by rewrite app_nil_r.
    + specialize (IH (classifiers ++ [klassifier])).
      assert (failure node = None) as Hok by (by subst failure; simpl; rewrite Hnode).
      assert (decoded node = klassifier) as Hdec by (by subst decoded; simpl; rewrite Hnode).
      destruct (decode_nodes rest (classifiers ++ [klassifier])) as [result [err|]].
      * destruct IH as (before & bad & after & -> & Hbefore & Hbad & ->).
        exists (node :: before), bad, after. split; [done|].
        split; [by constructor|]. split; [done|].
        rewrite <- app_assoc. simpl. by rewrite Hdec.
      * destruct IH as [Hall ->]. split; [by constructor|].
        rewrite <- app_assoc. simpl. by rewrite Hdec.
Qed.

Lemma exec_GetAllClassifiers u t o :
  exec (GetAllClassifiers u) t o →
  ∃ x,
    t = [obs (KAPI_Get (filepath_Join [EtcdMinionSpace; uuid_String u; "classifier"])
                (Some (mkGetOptions true)) : Op kapiE) x] ∧
    o = Returned
          match x with
          | inr err => ([], Some err)
          | inl resp => decode_nodes (Nodes (Response.Node resp)) []
          end.
Proof.
  unfold GetAllClassifiers. intros Hex. exec_inv; by eexists.
Qed.

(** C4, as the code has it.  [GetAllClassifiers] lists the classifier
    subtree of the minion and decodes the children in order.  When every
    child decodes it returns all of them and no error.  When a child fails
    to decode it returns that decode error together with the classifiers
    decoded before that child; the children after it are not decoded. *)
Theorem GetAllClassifiers_returns_decoded_prefix_on_failure u t classifiers err resp :
  exec (GetAllClassifiers u) t (Returned (classifiers, err)) →
  answered t
    (KAPI_Get (filepath_Join [EtcdMinionSpace; uuid_String u; "classifier"])
       (Some (mkGetOptions true)) : Op kapiE) (inl resp) →
  let decoded node := (json_Unmarshal (Value node)).1 in
  let failure node := (json_Unmarshal (Value node)).2 in
  match err with
  | None =>
      Forall (λ node, failure node = None) (Nodes (Response.Node resp)) ∧
      classifiers = decoded <$> Nodes (Response.Node resp)
  | Some err =>
      ∃ before node after,
        Nodes (Response.Node resp) = before ++ node :: after ∧
        Forall (λ node, failure node = None) before ∧
        failure node = Some err ∧
        classifiers = decoded <$> before
  end.
Proof.
  intros (x & -> & Ho)%exec_GetAllClassifiers Ha. answered_inv Ha.
  pose proof (decode_nodes_spec (Nodes (Response.Node resp)) []) as Hspec.
  simpl in Hspec. rewrite <- Ho in Hspec. exact Hspec.
Qed.

(** *** SubmitTask *)

Lemma exec_SubmitTask u task t o :
  exec (SubmitTask u task) t o →
  let minionRootDir := filepath_Join [EtcdMinionSpace; uuid_String u] in
  let queueDir := filepath_Join [minionRootDir; "queue"] in
  (∃ err, t = [obs (KAPI_Get minionRootDir None : Op kapiE) (inr err)] ∧
          o = Returned (Some err)) ∨
  (∃ resp err, t = [obs (KAPI_Get minionRootDir None : Op kapiE) (inl resp)] ∧
               json_Marshal task = inr err ∧ o = Returned (Some err)) ∨
  (∃ resp data x,
      t = [obs (KAPI_Get minionRootDir None : Op kapiE) (inl resp);
           obs (KAPI_CreateInOrder queueDir data None : Op kapiE) x] ∧
      json_Marshal task = inl data ∧
      o = Returned match x with inl _ => None | inr err => Some err end).
Proof.
  unfold SubmitTask. intros Hex. exec_inv.
  - right. right. by eexists _, _, (inl _).
  - right. right. by eexists _, _, (inr _).
  - right. left. by eexists _, _.
  - left. by eexists.
Qed.

(** C7.  [SubmitTask] first reads the root directory of the minion.  If
    that read fails, or if the task does not serialize, it returns an
    error and the execution contains no insert.  An insert occurs only
    after the read has succeeded and the task is serialized; it is one
    [CreateInOrder] of the serialized task in the queue directory of the
    minion, and it is performed whenever both checks succeed. *)
Theorem SubmitTask_inserts_only_after_both_checks u task t o :
  exec (SubmitTask u task) t o →
  let minionRootDir := filepath_Join [EtcdMinionSpace; uuid_String u] in
  let queueDir := filepath_Join [minionRootDir; "queue"] in
  (∀ err,
      answered t (KAPI_Get minionRootDir None : Op kapiE) (inr err) →
      o = Returned (Some err) ∧ Forall (λ op, ¬ is_insert op) (calls t)) ∧
  (∀ err,
      json_Marshal task = inr err →
      (∃ err', o = Returned (Some err')) ∧
      Forall (λ op, ¬ is_insert op) (calls t)) ∧
  (∀ dir value opts x,
      answered t (KAPI_CreateInOrder dir value opts : Op kapiE) x →
      ∃ resp,
        t = [obs (KAPI_Get minionRootDir None : Op kapiE) (inl resp);
             obs (KAPI_CreateInOrder queueDir value None : Op kapiE) x] ∧
        json_Marshal task = inl value ∧ dir = queueDir ∧ opts = None ∧
        o = Returned match x with inl _ => None | inr err => Some err end) ∧
  (∀ resp data,
      answered t (KAPI_Get minionRootDir None : Op kapiE) (inl resp) →
      json_Marshal task = inl data →
      ∃ x, answered t (KAPI_CreateInOrder queueDir data None : Op kapiE) x).
Proof.
  intros Hex minionRootDir queueDir.
  apply exec_SubmitTask in Hex
    as [(e & -> & ->)|[(resp & e & -> & Hm & ->)|(resp & data & x & -> & Hm & ->)]];
    fold minionRootDir; fold queueDir.
  - split_and!.
    + intros err Ha. answered_inv Ha. split; [done|]. repeat constructor. by intros [].
    + intros err Hm. split; [by eexists|]. repeat constructor. by intros [].
    + intros dir value opts x Ha. answered_inv Ha.
    + intros resp data Ha. answered_inv Ha.
  - split_and!.
    + intros err Ha. answered_inv Ha.
    + intros err Hm'. split; [by eexists|]. repeat constructor. by intros [].
    + intros dir value opts x Ha. answered_inv Ha.
    + intros resp' data Ha Hm'. congruence.
  - split_and!.
    + intros err Ha. answered_inv Ha.
    + intros err Hm'. congruence.
    + intros dir value opts x' Ha. answered_inv Ha. by exists resp.
    + intros resp' data' Ha Hm'. assert (data' = data) as -> by congruence.
      exists x. in_trace.
Qed.

(** *** GetClassifiedMinions *)

Section Fanout.
Context {W : Type} (h : handler kapiE W) (key : string).

(** Reads leave the store as it is, and nothing else writes to it while
      the query runs. *)
Hypothesis reads_only :
    ∀ k opts w, (h (KAPI_Get k opts : Op kapiE) w).2 = w.

Lemma run_GetClassifier u w :
    ∃ klassifier err t,
      run h (GetClassifier u key) w = (Returned (klassifier, err), w, t).
Proof using reads_only.
    unfold GetClassifier. simpl.
    pose proof (reads_only
      (filepath_Join [EtcdMinionSpace; uuid_String u; "classifier"; key]) None w) as Hw.
    destruct (h _ w) as [[r|e] w1]; simpl in *; subst w1.
    - destruct (json_Unmarshal _) as [klassifier err]. simpl. by eexists _, _, _.
    - by eexists _, _, _.
Qed.

Lemma retrieved_uuid_String w u u' :
    uuid_String u = uuid_String u' → retrieved h key w u = retrieved h key w u'.
Proof. unfold retrieved, GetClassifier. by intros ->. Qed.

  #[local] Opaque GetClassifier.

(** The eight actions. *)
Lemma fire_cases g c c' :
    fire h key g c = Some c' →
    (∃ node rest,
        producer c = Sending (node :: rest) ∧
        uuid_Parse (path_Base (Key node)) = None ∧
        etcd c' = etcd c ∧ producer c' = Sending rest ∧ queue c' = queue c ∧
        workers c' = workers c ∧ cm c' = cm c) ∨
    (∃ node rest u,
        producer c = Sending (node :: rest) ∧
        uuid_Parse (path_Base (Key node)) = Some u ∧
        length (queue c) < queueCapacity ∧
        etcd c' = etcd c ∧ producer c' = Sending rest ∧ queue c' = queue c ++ [u] ∧
        workers c' = workers c ∧ cm c' = cm c) ∨
    (producer c = Sending [] ∧
     etcd c' = etcd c ∧ producer c' = Closed ∧ queue c' = queue c ∧
     workers c' = workers c ∧ cm c' = cm c) ∨
    (∃ i u rest,
        workers c !! i = Some Receiving ∧ queue c = u :: rest ∧
        etcd c' = etcd c ∧ producer c' = producer c ∧ queue c' = rest ∧
        workers c' = <[i := Looking u]> (workers c) ∧ cm c' = cm c) ∨
    (∃ i,
        workers c !! i = Some Receiving ∧ queue c = [] ∧ producer c = Closed ∧
        etcd c' = etcd c ∧ producer c' = producer c ∧ queue c' = [] ∧
        workers c' = <[i := Done]> (workers c) ∧ cm c' = cm c) ∨
    (∃ i u,
        workers c !! i = Some (Looking u) ∧ retrieved h key (etcd c) u = None ∧
        etcd c' = etcd c ∧ producer c' = producer c ∧ queue c' = queue c ∧
        workers c' = <[i := Receiving]> (workers c) ∧ cm c' = cm c) ∨
    (∃ i u k,
        workers c !! i = Some (Looking u) ∧ retrieved h key (etcd c) u = Some k ∧
        etcd c' = etcd c ∧ producer c' = producer c ∧ queue c' = queue c ∧
        workers c' = <[i := Setting u k]> (workers c) ∧ cm c' = cm c) ∨
    (∃ i u k,
        workers c !! i = Some (Setting u k) ∧
        etcd c' = etcd c ∧ producer c' = producer c ∧ queue c' = queue c ∧
        workers c' = <[i := Receiving]> (workers c) ∧
        cm c' = <[uuid_String u := k]> (cm c)).
Proof using reads_only.
    destruct c as [e p q ws m l]. unfold fire. simpl.
    destruct g as [|i].
    - destruct p as [[|node rest]|]; [| |done].
      + intros [= <-]. right. right. left. done.
      + destruct (uuid_Parse _) as [u|] eqn:Hparse.
        * case_decide; [|done]. intros [= <-]. right. left. by eexists _, _, _.
        * intros [= <-]. left. by eexists _, _.
    - destruct (ws !! i) as [[|u|u k|]|] eqn:Hi; [| | |done|done].
      + destruct q as [|u rest].
        * destruct p; [done|]. intros [= <-]. do 4 right. left. by exists i.
        * intros [= <-]. do 3 right. left. by eexists i, _, _.
      + destruct (run_GetClassifier u e) as (klassifier & err & t & Hrun).
        rewrite Hrun.
        destruct err as [err|]; intros [= <-].
        * do 5 right. left. exists i, u. unfold retrieved. by rewrite Hrun.
        * do 6 right. left. exists i, u, klassifier. unfold retrieved. by rewrite Hrun.
      + intros [= <-]. do 7 right. by eexists i, _, _.
Qed.

(** Workers after one of them moved. *)
Lemma moved_other (ws : list Worker) i j old new x :
    ws !! i = Some old → x ≠ old →
    ws !! j = Some x → <[i := new]> ws !! j = Some x.
Proof.
    intros Hi Hne Hj. destruct (decide (i = j)) as [->|Hij].
    - congruence.
    - by rewrite list_lookup_insert_ne.
Qed.

Lemma moved_inv (ws : list Worker) i j new x :
    <[i := new]> ws !! j = Some x → (i = j ∧ x = new) ∨ (i ≠ j ∧ ws !! j = Some x).
Proof. rewrite list_lookup_insert_Some. intros [(-> & -> & _)|[? ?]]; auto. Qed.

Lemma moved_self (ws : list Worker) i old new :
    ws !! i = Some old → <[i := new]> ws !! i = Some new.
Proof. intros Hi. apply list_lookup_insert_eq. by eapply lookup_lt_Some. Qed.

Section Preservation.
Context (w : W) (resp : Response.t).

Lemma consistent_initial :
      consistent h key w resp (initial w resp).
Proof.
      unfold consistent, initial. cbn [etcd producer queue workers cm].
      split_and!; try done.
      - intros i u k [[=] _]%lookup_replicate.
      - intros i u [[=] _]%lookup_replicate.
      - intros u []%elem_of_nil.
      - intros u k Hu _. right. by left.
      - intros (i & [[=] _]%lookup_replicate).
Qed.

Lemma consistent_fire g c c' :
      consistent h key w resp c → fire h key g c = Some c' →
      consistent h key w resp c'.
Proof using reads_only.
      intros (He & Hlen & Hcm & Hset & Hlook & Hq & Hsend & Hcomp & Hdone) Hfire.
      apply fire_cases in Hfire
        as [(node & rest & Hp & Hparse & He' & Hp' & Hq' & Hws' & Hcm')
           |[(node & rest & u & Hp & Hparse & Hcap & He' & Hp' & Hq' & Hws' & Hcm')
           |[(Hp & He' & Hp' & Hq' & Hws' & Hcm')
           |[(i & u & rest & Hi & Hqc & He' & Hp' & Hq' & Hws' & Hcm')
           |[(i & Hi & Hqc & Hp & He' & Hp' & Hq' & Hws' & Hcm')
           |[(i & u & Hi & Hret & He' & Hp' & Hq' & Hws' & Hcm')
           |[(i & u & k & Hi & Hret & He' & Hp' & Hq' & Hws' & Hcm')
           |(i & u & k & Hi & He' & Hp' & Hq' & Hws' & Hcm')]]]]]]];
        unfold consistent; rewrite He', Hp', Hq', Hws', Hcm', ?length_insert.
      - (* a child that is not a UUID is skipped *)
        assert (to_send (Sending rest) = to_send (producer c)) as Hts.
        { rewrite Hp. simpl. by rewrite Hparse. }
        rewrite Hts. split_and!; try done.
        intros Hex. destruct (Hdone Hex) as [Hc _]. congruence.
      - (* queue <- u *)
        assert (to_send (producer c) = u :: to_send (Sending rest)) as Hts.
        { rewrite Hp. simpl. by rewrite Hparse. }
        rewrite Hts in Hsend, Hcomp. split_and!; try done.
        + intros u' [Hu'|Hu']%elem_of_app; [by apply Hq|].
          apply list_elem_of_singleton in Hu' as ->. apply Hsend. by left.
        + intros u' Hu'. apply Hsend. by right.
        + intros u' k' Hu' Hret'.
          destruct (Hcomp u' k' Hu' Hret') as [?|[Hin|[?|[?|?]]]]; auto.
          * apply elem_of_cons in Hin as [->|Hin]; [|auto].
            right. right. left. apply elem_of_app. right. by apply list_elem_of_singleton.
          * right. right. left. apply elem_of_app. by left.
        + intros Hex. destruct (Hdone Hex) as [Hc _]. congruence.
      - (* close(queue) *)
        rewrite Hp in Hsend, Hcomp. split_and!; try done.
        intros Hex. destruct (Hdone Hex) as [Hc _]. congruence.
      - (* a worker receives u *)
        rewrite Hqc in Hq, Hcomp. split_and!; try done.
        + intros j u' k' [[_ [=]]|[_ Hj]]%moved_inv. by eapply Hset.
        + intros j u' [[_ [= ->]]|[_ Hj]]%moved_inv; [|by eapply Hlook].
          apply Hq. by left.
        + intros u' Hu'. apply Hq. by right.
        + intros u' k' Hu' Hret'.
          destruct (Hcomp u' k' Hu' Hret') as [?|[?|[Hin|[[j Hj]|[j Hj]]]]]; auto.
          * apply elem_of_cons in Hin as [->|Hin]; [|auto].
            do 3 right. left. exists i. by eapply moved_self.
          * do 3 right. left. exists j. by eapply moved_other.
          * do 4 right. exists j. by eapply moved_other.
        + intros (j & [[_ [=]]|[_ Hj]]%moved_inv).
          destruct Hdone as [_ Hempty]; [by exists j|]. congruence.
      - (* a worker sees the queue closed and empty *)
        rewrite Hqc in Hq, Hcomp. split_and!; try done.
        + intros j u' k' [[_ [=]]|[_ Hj]]%moved_inv. by eapply Hset.
        + intros j u' [[_ [=]]|[_ Hj]]%moved_inv. by eapply Hlook.
        + intros u' k' Hu' Hret'.
          destruct (Hcomp u' k' Hu' Hret') as [?|[?|[Hin|[[j Hj]|[j Hj]]]]]; auto.
          * do 3 right. left. exists j. by eapply moved_other.
          * do 4 right. exists j. by eapply moved_other.
      - (* a lookup fails: continue *)
        rewrite He in Hret. split_and!; try done.
        + intros j u' k' [[_ [=]]|[_ Hj]]%moved_inv. by eapply Hset.
        + intros j u' [[_ [=]]|[_ Hj]]%moved_inv. by eapply Hlook.
        + intros u' k' Hu' Hret'.
          destruct (Hcomp u' k' Hu' Hret') as [?|[?|[Hin|[[j Hj]|[j Hj]]]]]; auto.
          * destruct (decide (i = j)) as [->|Hij].
            -- rewrite Hi in Hj. injection Hj as ->. congruence.
            -- do 3 right. left. exists j. by rewrite list_lookup_insert_ne.
          * do 4 right. exists j. by eapply moved_other.
        + intros (j & [[_ [=]]|[_ Hj]]%moved_inv). apply Hdone. by exists j.
      - (* a lookup succeeds *)
        rewrite He in Hret. split_and!; try done.
        + intros j u' k' [[_ [= -> ->]]|[_ Hj]]%moved_inv; [|by eapply Hset].
          split; [by eapply Hlook|done].
        + intros j u' [[_ [=]]|[_ Hj]]%moved_inv. by eapply Hlook.
        + intros u' k' Hu' Hret'.
          destruct (Hcomp u' k' Hu' Hret') as [?|[?|[Hin|[[j Hj]|[j Hj]]]]]; auto.
          * destruct (decide (i = j)) as [->|Hij].
            -- rewrite Hi in Hj. injection Hj as ->.
               assert (k' = k) as -> by congruence.
               do 4 right. exists j. by eapply moved_self.
            -- do 3 right. left. exists j. by rewrite list_lookup_insert_ne.
          * do 4 right. exists j. by eapply moved_other.
        + intros (j & [[_ [=]]|[_ Hj]]%moved_inv). apply Hdone. by exists j.
      - (* cm.Set *)
        destruct (Hset _ _ _ Hi) as [Hu Hret].
        split_and!; try done.
        + intros s k'. rewrite lookup_insert. case_decide as Hs.
          * intros [= <-]. by exists u.
          * apply Hcm.
        + intros j u' k' [[_ [=]]|[_ Hj]]%moved_inv. by eapply Hset.
        + intros j u' [[_ [=]]|[_ Hj]]%moved_inv. by eapply Hlook.
        + intros u' k' Hu' Hret'.
          assert (uuid_String u = uuid_String u' → k' = k) as Hsame.
          { intros Heq. rewrite <- (retrieved_uuid_String w _ _ Heq) in Hret'. congruence. }
          destruct (Hcomp u' k' Hu' Hret') as [Hin|[?|[?|[[j Hj]|[j Hj]]]]]; auto.
          * left. rewrite lookup_insert. case_decide as Hs; [|done].
            by rewrite (Hsame Hs).
          * do 3 right. left. exists j. by eapply moved_other.
          * destruct (decide (i = j)) as [->|Hij].
            -- rewrite Hi in Hj. injection Hj as -> ->.
               left. by rewrite lookup_insert_eq.
            -- do 4 right. exists j. by rewrite list_lookup_insert_ne.
        + intros (j & [[_ [=]]|[_ Hj]]%moved_inv). apply Hdone. by exists j.
Qed.

Lemma consistent_steps c0 c :
      consistent h key w resp c0 → rtc (step h key) c0 c →
      consistent h key w resp c.
Proof using reads_only.
      intros Hc0 Hsteps. induction Hsteps as [|c0 c1 c [g Hfire] _ IH]; [done|].
      apply IH. by eapply consistent_fire.
Qed.

(** After [wg.Wait()] the aggregate holds exactly the classified
        minions of the listing. *)
Lemma consistent_all_done c s k :
      consistent h key w resp c → all_done c →
      cm c !! s = Some k ↔
        ∃ u, u ∈ enumerated resp ∧ uuid_String u = s ∧ retrieved h key w u = Some k.
Proof.
      intros (He & Hlen & Hcm & Hset & Hlook & Hq & Hsend & Hcomp & Hdone) Hall.
      unfold all_done in Hall. rewrite Forall_lookup in Hall.
      split; [apply Hcm|]. intros (u & Hu & <- & Hret).
      destruct (lookup_lt_is_Some_2 (workers c) 0) as [x Hx].
      { rewrite Hlen. unfold maxGoroutines. lia. }
      pose proof (Hall _ _ Hx) as ->.
      destruct Hdone as [Hp Hqe]; [by exists 0|].
      rewrite Hp, Hqe in Hcomp.
      destruct (Hcomp u k Hu Hret) as [?|[[]%elem_of_nil|[[]%elem_of_nil|[[j Hj]|[j Hj]]]]];
        [done|by apply Hall in Hj..].
Qed.
End Preservation.

(** *** Progress and termination *)

Ltac fire_unfold := unfold fire; cbn [etcd producer queue workers cm logged].

Lemma fire_progress c :
    ¬ all_done c → ∃ g c', fire h key g c = Some c'.
Proof using reads_only.
    intros Hnot. unfold all_done in Hnot.
    apply not_Forall_Exists in Hnot; [|apply _].
    apply Exists_exists in Hnot as (x & [i Hi]%list_elem_of_lookup & Hx).
    destruct c as [e p q ws m l]. cbn [workers] in Hi.
    destruct x as [|u|u k|]; [| | |by destruct Hx].
    - destruct q as [|u rest].
      + destruct p as [[|node nodes]|].
        * exists the_producer. fire_unfold. by eexists.
        * exists the_producer. fire_unfold. destruct (uuid_Parse _); [|by eexists].
          destruct (decide _) as [|Hn]; [by eexists|].
          exfalso. apply Hn. unfold queueCapacity. cbn [length]. lia.
        * exists (worker i). fire_unfold. rewrite Hi. by eexists.
      + exists (worker i). fire_unfold. rewrite Hi. by eexists.
    - exists (worker i). fire_unfold. rewrite Hi.
      destruct (run_GetClassifier u e) as (klassifier & err & t & ->).
      destruct err; by eexists.
    - exists (worker i). fire_unfold. rewrite Hi. by eexists.
Qed.

Lemma worker_fuel_moved (ws : list Worker) i old new :
    ws !! i = Some old →
    sum_list (worker_fuel <$> <[i := new]> ws) + worker_fuel old
    = sum_list (worker_fuel <$> ws) + worker_fuel new.
Proof.
    revert i. induction ws as [|x ws IH]; intros [|i] Hi; simplify_eq/=.
    - lia.
    - specialize (IH _ Hi). lia.
Qed.

Lemma fire_fuel g c c' :
    fire h key g c = Some c' → fuel c' < fuel c.
Proof using reads_only.
    intros Hfire.
    apply fire_cases in Hfire
      as [(node & rest & Hp & Hparse & He' & Hp' & Hq' & Hws' & Hcm')
         |[(node & rest & u & Hp & Hparse & Hcap & He' & Hp' & Hq' & Hws' & Hcm')
         |[(Hp & He' & Hp' & Hq' & Hws' & Hcm')
         |[(i & u & rest & Hi & Hqc & He' & Hp' & Hq' & Hws' & Hcm')
         |[(i & Hi & Hqc & Hp & He' & Hp' & Hq' & Hws' & Hcm')
         |[(i & u & Hi & Hret & He' & Hp' & Hq' & Hws' & Hcm')
         |[(i & u & k & Hi & Hret & He' & Hp' & Hq' & Hws' & Hcm')
         |(i & u & k & Hi & He' & Hp' & Hq' & Hws' & Hcm')]]]]]]];
      unfold fuel; rewrite Hp', Hq', Hws';
      try rewrite Hp; try rewrite Hqc; simpl; rewrite ?length_app; simpl;
      try (match goal with
           | |- context [<[i := ?new]> (workers c)] =>
               pose proof (worker_fuel_moved (workers c) i _ new Hi)
           end); simpl in *; lia.
Qed.

(** Every interleaving can be continued until all workers are done. *)
Lemma fanout_terminates c :
    ∃ c', rtc (step h key) c c' ∧ all_done c'.
Proof using reads_only.
    remember (fuel c) as n eqn:Hn. revert c Hn.
    induction n as [n IH] using lt_wf_ind. intros c ->.
    destruct (decide (all_done c)) as [Hdone|Hnot].
    - by exists c.
    - destruct (fire_progress c Hnot) as (g & c1 & Hfire).
      destruct (IH (fuel c1) (fire_fuel _ _ _ Hfire) c1 eq_refl)
        as (c' & Hsteps & Hdone).
      exists c'. split; [|done]. eapply rtc_l; [by exists g|done].
Qed.

(** The copy of the aggregate is the aggregate. *)
Lemma copy_result_id (m : gmap string MinionClassifier) : copy_result m = m.
Proof.
    unfold copy_result.
    rewrite <- (list_to_map_to_list m) at 2.
    rewrite <- (list_to_map_proper (reverse (map_to_list m)) (map_to_list m)).
    - generalize (map_to_list m) as l. intros l.
      rewrite <- (reverse_involutive l) at 1. generalize (reverse l) as l'. clear l.
      intros l'. induction l' as [|[s k] l' IH]; [done|].
      rewrite reverse_cons, foldl_app. simpl. by rewrite IH.
    - rewrite fmap_reverse, reverse_Permutation. apply NoDup_fst_map_to_list.
    - apply reverse_Permutation.
Qed.

(** *** The result *)

Lemma elem_of_classified w resp s k :
    (s, k) ∈ classified h key w resp ↔
      ∃ u, u ∈ enumerated resp ∧ uuid_String u = s ∧ retrieved h key w u = Some k.
Proof.
    unfold classified. rewrite list_elem_of_omap. split.
    - intros (u & Hu & Hf). exists u. split; [done|].
      destruct (retrieved h key w u) as [k'|]; simplify_eq/=. done.
    - intros (u & Hu & <- & Hret). exists u. split; [done|]. by rewrite Hret.
Qed.

Lemma classified_NoDup w resp :
    NoDup (uuid_String <$> enumerated resp) → NoDup (classified h key w resp).*1.
Proof.
    unfold classified. generalize (enumerated resp) as l.
    induction l as [|u l IH]; simpl; [constructor|].
    intros [Hu Hl]%NoDup_cons. specialize (IH Hl).
    destruct (retrieved h key w u) as [k|]; simpl; [|done].
    apply NoDup_cons. split; [|done].
    intros ([s k'] & Hs & (u' & Hu' & Hf)%list_elem_of_omap)%list_elem_of_fmap.
    apply Hu. apply list_elem_of_fmap. exists u'. split; [|done].
    destruct (retrieved h key w u'); simplify_eq/=. done.
Qed.

Lemma classified_length w resp :
    length (classified h key w resp)
    = length (filter (λ u, is_Some (retrieved h key w u)) (enumerated resp)).
Proof.
    unfold classified. generalize (enumerated resp) as l.
    induction l as [|u l IH]; [done|].
    rewrite filter_cons. case_decide as Hsome.
    - destruct Hsome as [k Hk]. simpl. rewrite Hk. simpl. f_equal. exact IH.
    - destruct (retrieved h key w u) as [k|] eqn:Hk.
      + destruct Hsome. by eexists.
      + simpl. rewrite Hk. exact IH.
Qed.

(** What the fan-out returns, under every interleaving. *)
Lemma fanout_map w resp r :
    (h (KAPI_Get EtcdMinionSpace None : Op kapiE) w).1 = inl resp →
    GetClassifiedMinions h key w r →
    ∃ result,
      r = (Some result, None) ∧
      ∀ s k,
        result !! s = Some k ↔
          ∃ u, u ∈ enumerated resp ∧ uuid_String u = s ∧
               retrieved h key w u = Some k.
Proof using reads_only.
    intros Hlist Hr.
    pose proof (reads_only EtcdMinionSpace None w) as Hw.
    destruct Hr as [err w1 Hfail|resp' w1 c Hget Hsteps Hdone].
    { rewrite Hfail in Hlist. discriminate Hlist. }
    rewrite Hget in Hlist, Hw. simpl in Hlist, Hw. simplify_eq.
    exists (copy_result (cm c)). split; [done|].
    rewrite copy_result_id. intros s k.
    apply consistent_all_done; [|done].
    by eapply consistent_steps; [apply consistent_initial|].
Qed.

(** C1.  On a store that the query only reads: once the listing of the
      minion space succeeds, [GetClassifiedMinions] returns, under every
      interleaving of the producer and the workers, a map and a nil error.
      The map has an entry for a key exactly when a listed minion with that
      UUID string has a classifier that [GetClassifier] retrieves, and the
      entry is that classifier; minions whose lookup fails have no entry.
      When the listed UUIDs are pairwise distinct the map has as many
      entries as there are listed minions with a retrievable classifier. *)
Theorem GetClassifiedMinions_returns_exactly_the_classified_minions w resp :
    (h (KAPI_Get EtcdMinionSpace None : Op kapiE) w).1 = inl resp →
    (∃ r, GetClassifiedMinions h key w r) ∧
    ∀ r, GetClassifiedMinions h key w r →
      ∃ result,
        r = (Some result, None) ∧
        (∀ s k,
            result !! s = Some k ↔
              ∃ u, u ∈ enumerated resp ∧ uuid_String u = s ∧
                   retrieved h key w u = Some k) ∧
        (NoDup (uuid_String <$> enumerated resp) →
         size result
         = length (filter (λ u, is_Some (retrieved h key w u)) (enumerated resp))).
Proof using reads_only.
    intros Hlist. split.
    - (* some interleaving runs to the end, and wg.Wait() returns *)
      assert (h (KAPI_Get EtcdMinionSpace None : Op kapiE) w = (inl resp, w)) as Hget.
      { pose proof (reads_only EtcdMinionSpace None w) as Hw.
        destruct (h _ w) as [x w1]. simpl in *. by subst. }
      destruct (fanout_terminates (initial w resp)) as (c & Hsteps & Hdone).
      eexists. by eapply workers_joined.
    - intros r Hr.
      destruct (fanout_map w resp r Hlist Hr) as (result & -> & Hresult).
      exists result. split; [done|]. split; [done|]. intros Hnd.
      assert (result = list_to_map (classified h key w resp)) as ->.
      { apply map_eq. intros s. apply option_eq. intros k.
        rewrite Hresult, <- elem_of_list_to_map by (by apply classified_NoDup).
        by rewrite elem_of_classified. }
      rewrite map_size_list_to_map by (by apply classified_NoDup).
      apply classified_length.
Qed.
End Fanout.

End Client.

(** *** The client on a concrete cluster *)
Section Cluster.
Import etcdclient client client_spec cluster.

(** The toy store answers reads without changing. *)
Lemma etcd_reads_only k opts (w : Store) :
  (etcd (KAPI_Get k opts : Op kapiE) w).2 = w.
Proof. reflexivity. Qed.

Lemma GetClassifiedMinions_returns_exactly_the_classified_minions_witness :
  (∀ k opts (w : Store), (etcd (KAPI_Get k opts : Op kapiE) w).2 = w) ∧
  (etcd (KAPI_Get EtcdMinionSpace None : Op kapiE) fleet).1 = inl listing ∧
  ∃ r result,
    GetClassifiedMinions etcd "role" fleet r ∧
    r = (Some result, None) ∧
    size result = 1.
Proof.
  assert ((etcd (KAPI_Get EtcdMinionSpace None : Op kapiE) fleet).1 = inl listing)
    as Hlist.
  { vm_compute. reflexivity. }
  split; [exact etcd_reads_only|]. split; [exact Hlist|].
  destruct (GetClassifiedMinions_returns_exactly_the_classified_minions
              etcd "role" etcd_reads_only fleet listing Hlist)
    as [[r Hr] Hall].
  destruct (Hall r Hr) as (result & Heq & _ & Hsize).
  exists r, result. split; [exact Hr|]. split; [exact Heq|].
  rewrite Hsize.
  - vm_compute. reflexivity.
  - apply (bool_decide_unpack _). vm_compute. exact I.
Defined.

(** On the fleet, the query for [role] returns the entry of [m1] alone,
    whatever the interleaving: [m2] has no such classifier and the one of
    [m3] does not decode. *)
Example fleet_role_query r :
  GetClassifiedMinions etcd "role" fleet r →
  r = (Some {[ m1 := Some (SimpleClassifier.mk "role" "web") ]}, None).
Proof.
  intros Hr.
  assert ((etcd (KAPI_Get EtcdMinionSpace None : Op kapiE) fleet).1 = inl listing)
    as Hlist by (vm_compute; reflexivity).
  destruct (fanout_map etcd "role" etcd_reads_only fleet listing r Hlist Hr)
    as (result & -> & Hresult).
  do 2 f_equal. apply map_eq. intros s. apply option_eq. intros k.
  rewrite Hresult.
  assert (enumerated listing = [m1; m2; m3]) as -> by (vm_compute; reflexivity).
  assert (retrieved etcd "role" fleet m1 = Some (Some (SimpleClassifier.mk "role" "web")))
    as H1 by (vm_compute; reflexivity).
  assert (retrieved etcd "role" fleet m2 = None) as H2 by (vm_compute; reflexivity).
  assert (retrieved etcd "role" fleet m3 = None) as H3 by (vm_compute; reflexivity).
  rewrite lookup_singleton_Some. split.
  - intros (u & Hu & <- & Hret).
    rewrite !elem_of_cons, elem_of_nil in Hu.
    destruct Hu as [->|[->|[->|[]]]]; [|congruence..].
    split; [done|]. congruence.
  - intros [<- <-]. exists m1. split; [by left|]. done.
Qed.

Lemma GetAllClassifiers_returns_decoded_prefix_on_failure_witness :
  let t := (run etcd (GetAllClassifiers m1) fleet).2 in
  ∃ err before node after,
    exec (GetAllClassifiers m1) t
      (Returned ([Some (SimpleClassifier.mk "role" "web")], Some err)) ∧
    [leaf "/gru/minion/f0e1d2c3-0000-4000-8000-000000000001/classifier/role" "role=web";
     leaf "/gru/minion/f0e1d2c3-0000-4000-8000-000000000001/classifier/env" "prod"]
    = before ++ node :: after ∧
    (json_Unmarshal (Value node)).2 = Some err ∧
    [Some (SimpleClassifier.mk "role" "web")]
    = (λ node, (json_Unmarshal (Value node)).1) <$> before.
Proof.
  intros t.
  set (err := ErrorString "invalid character looking for beginning of value").
  assert (exec (GetAllClassifiers m1) t
            (Returned ([Some (SimpleClassifier.mk "role" "web")], Some err))) as Hex.
  { exact (run_exec etcd (GetAllClassifiers m1) fleet). }
  destruct (@GetAllClassifiers_returns_decoded_prefix_on_failure uuids imports m1 t _ (Some err)
              (Response.mk "get"
                 (dir "/gru/minion/f0e1d2c3-0000-4000-8000-000000000001/classifier"
                    [leaf "/gru/minion/f0e1d2c3-0000-4000-8000-000000000001/classifier/role" "role=web";
                     leaf "/gru/minion/f0e1d2c3-0000-4000-8000-000000000001/classifier/env" "prod"]))
              Hex)
    as (before & node & after & Hnodes & _ & Hnode & Hprefix).
  { in_run. }
  exists err, before, node, after. split; [exact Hex|].
  split; [exact Hnodes|]. split; [exact Hnode|exact Hprefix].
Defined.

(** The claim that a decode failure leaves no partial list fails on the
    fleet: the classifiers of [m1] are [role] and an undecodable [env], and
    the call returns the decoded [role] next to the error. *)
Lemma GetAllClassifiers_no_partial_list_counterexample :
  ¬ (∀ (u : string) t classifiers err resp node,
        exec (GetAllClassifiers (H:=uuids) (H0:=imports) u) t
          (Returned (classifiers, Some err)) →
        answered t
          (KAPI_Get (filepath_Join [EtcdMinionSpace; uuid_String u; "classifier"])
             (Some (mkGetOptions true)) : Op kapiE) (inl resp) →
        node ∈ Nodes (Response.Node resp) →
        (json_Unmarshal (Value node)).2 = Some err →
        classifiers = []).
Proof.
  intros Hclaim.
  pose proof (Hclaim m1 _ _ _
    (Response.mk "get"
       (dir "/gru/minion/f0e1d2c3-0000-4000-8000-000000000001/classifier"
          [leaf "/gru/minion/f0e1d2c3-0000-4000-8000-000000000001/classifier/role" "role=web";
           leaf "/gru/minion/f0e1d2c3-0000-4000-8000-000000000001/classifier/env" "prod"]))
    (leaf "/gru/minion/f0e1d2c3-0000-4000-8000-000000000001/classifier/env" "prod")
    (run_exec etcd (GetAllClassifiers m1) fleet)) as Hnil.
  discriminate Hnil.
  - in_run.
  - simpl. in_trace.
  - reflexivity.
Qed.

Lemma SubmitTask_inserts_only_after_both_checks_witness :
  let t := (run etcd (SubmitTask m2 "uptime") fleet).2 in
  exec (SubmitTask m2 "uptime") t (Returned None) ∧
  ∃ x, answered t
         (KAPI_CreateInOrder "/gru/minion/f0e1d2c3-0000-4000-8000-000000000002/queue"
            "uptime" None : Op kapiE) x.
Proof.
  intros t.
  assert (exec (SubmitTask m2 "uptime") t (Returned None)) as Hex.
  { exact (run_exec etcd (SubmitTask m2 "uptime") fleet). }
  split; [exact Hex|].
  refine (proj2 (proj2 (proj2
            (@SubmitTask_inserts_only_after_both_checks uuids imports m2 "uptime" t _ Hex)))
            (Response.mk "get" (dir "/gru/minion/f0e1d2c3-0000-4000-8000-000000000002" []))
            "uptime" _ _).
  - in_run.
  - reflexivity.
Defined.

(** An unknown minion: the read of its root fails and nothing is queued. *)
Example SubmitTask_unknown_minion :
  let '(o, w, t) := run etcd (SubmitTask "f0e1d2c3-0000-4000-8000-00000000000f" "uptime") fleet in
  o = Returned (Some (EtcdError ErrorCodeKeyNotFound "Key not found")) ∧
  inserted w = [].
Proof. vm_compute. done. Qed.
End Cluster.

(** ** The classifier command *)
Section Command.
Import etcdclient command command_spec.
Context `{UUIDPackage} `{Imports}.

Lemma exec_displayError {R} err code t (o : Outcome R) :
  exec (displayError err code) t o →
  t = [obs (print_error err : Op cmdE) tt] ∧ o = Halted (os_Exit code).
Proof.
  unfold displayError. intros Hex. exec_inv.
  by repeat match goal with u : () |- _ => destruct u end.
Qed.

Lemma add_rows_within client minion classifierKeys table :
  within table_call (add_rows client minion classifierKeys table).
Proof.
  revert table. induction classifierKeys as [|k rest IH]; intros table; simpl; [done|].
  split; [done|]. intros [classifier [err|]]; simpl; [done|apply IH].
Qed.

#[local] Opaque displayError.

(** The shape of an execution that gets past the arguments. *)
Lemma exec_execClassifierCommand c arg rest minion t o :
  Args c = arg :: rest → uuid_Parse arg = Some minion →
  exec (execClassifierCommand c) t o →
  ∃ client keys err t',
    t = obs (newEtcdMinionClientFromFlags c : Op cmdE) client
        :: obs (MinionClassifierKeys client minion : Op cmdE) (keys, err) :: t' ∧
    match err with
    | Some (EtcdError Code _ as e) =>
        if decide (Code = ErrorCodeKeyNotFound)
        then (keys = [] → t' = [] ∧ o = Returned tt) ∧ Forall table_call (calls t')
        else t' = [obs (print_error e : Op cmdE) tt] ∧ o = Halted (os_Exit 1)
    | Some e => t' = [obs (print_error e : Op cmdE) tt] ∧ o = Halted (os_Exit 1)
    | None => (keys = [] → t' = [] ∧ o = Returned tt) ∧ Forall table_call (calls t')
    end.
Proof.
  intros Hargs Hparse. unfold execClassifierCommand. rewrite Hargs, Hparse.
  simpl. intros (client & t1 & -> & [keys err] & t' & -> & Hex).
  exists client, keys, err, t'. split; [done|].
  assert (∀ t o, exec
            (if decide (length keys = 0) then Ret ()
             else table <- add_rows client minion keys
                             (AddRow (mkTable 80 (Rows uitable_New)) ["KEY"; "VALUE"]);;
                  call (fmt_Println table : Op cmdE)) t o →
          (keys = [] → t = [] ∧ o = Returned tt) ∧ Forall table_call (calls t)) as Htable.
  { clear. intros t o Hex. split.
    - intros ->. by destruct Hex as [-> ->].
    - revert Hex. apply within_exec. case_decide; [done|].
      apply within_bind; [apply add_rows_within|]. intros table. simpl. done. }
  destruct err as [[Code Message|text]|].
  - destruct (decide (Code = ErrorCodeKeyNotFound)) as [->|Hne].
    + rewrite decide_False in Hex by (by intros []). simpl in Hex. by apply Htable.
    + rewrite decide_True in Hex by done.
      apply exec_bind in Hex as [(t1 & [] & t2 & -> & Hd & _)|(a & Hd & ->)];
        by apply exec_displayError in Hd as [-> ?]; simplify_eq.
  - apply exec_bind in Hex as [(t1 & [] & t2 & -> & Hd & _)|(a & Hd & ->)];
      by apply exec_displayError in Hd as [-> ?]; simplify_eq.
  - simpl in Hex. by apply Htable.
Qed.

(** C8.  With a valid minion UUID as first argument: when the listing of
    the classifier keys fails with the etcd error "key not found" (and,
    as a failed listing does, yields no keys), the command returns
    without printing anything; when the listing fails with any other
    error, the command reports that error and exits with status 1,
    printing no table. *)
Theorem key_not_found_listing_is_an_empty_result
    c arg rest minion t o client keys err :
  Args c = arg :: rest → uuid_Parse arg = Some minion →
  exec (execClassifierCommand c) t o →
  answered t (MinionClassifierKeys client minion : Op cmdE) (keys, Some err) →
  ((∃ message, err = EtcdError ErrorCodeKeyNotFound message) → keys = [] →
   o = Returned tt ∧ Forall (λ op, ¬ prints op) (calls t)) ∧
  ((∀ message, err ≠ EtcdError ErrorCodeKeyNotFound message) →
   o = Halted (os_Exit 1) ∧
   answered t (print_error err : Op cmdE) tt ∧
   ∀ table, ¬ answered t (fmt_Println table : Op cmdE) tt).
Proof.
  intros Hargs Hparse Hex Ha.
  destruct (exec_execClassifierCommand _ _ _ _ _ _ Hargs Hparse Hex)
    as (client' & keys' & err' & t' & -> & Hshape).
  assert (client' = client ∧ keys' = keys ∧ err' = Some err) as (-> & -> & ->).
  { apply answered_cons in Ha as [Ha|Ha]; [obs_eq_inv Ha|].
    apply answered_cons in Ha as [Ha|Ha]; [by obs_eq_inv Ha|].
    apply answered_calls in Ha.
    assert (Forall table_call (calls t')) as Hall.
    { destruct err' as [[Code Message|text]|]; [case_decide|..];
        destruct Hshape as [Hs1 Hs2]; subst; try done; repeat constructor. }
    rewrite Forall_forall in Hall. by apply Hall in Ha. }
  split.
  - intros [message ->] ->. rewrite decide_True in Hshape by done.
    destruct Hshape as [[-> ->] _]; [done|]. split; [done|].
    repeat constructor; by intros [].
  - intros Hother.
    assert (t' = [obs (print_error err : Op cmdE) tt] ∧ o = Halted (os_Exit 1))
      as [-> ->].
    { destruct err as [Code Message|text]; [|done].
      case_decide as Hc; [|done]. subst Code. by destruct (Hother Message). }
    split; [done|]. split; [in_trace|].
    intros table Hp. answered_inv Hp.
Qed.
End Command.

(** *** The command in a terminal session *)
Section Session.
Import etcdclient command command_spec cluster.

Lemma key_not_found_listing_is_an_empty_result_witness :
  let c := mkContext [m2] in
  let t := (run session (execClassifierCommand c) (mkTerminal [] [])).2 in
  exec (execClassifierCommand c) t (Returned tt) ∧
  answered t (MinionClassifierKeys 7 m2 : Op cmdE)
    ([], Some (EtcdError ErrorCodeKeyNotFound "Key not found")) ∧
  Forall (λ op, ¬ prints op) (calls t).
Proof.
  intros c t.
  assert (exec (execClassifierCommand c) t (Returned tt)) as Hex.
  { exact (run_exec session (execClassifierCommand c) (mkTerminal [] [])). }
  assert (answered t (MinionClassifierKeys 7 m2 : Op cmdE)
            ([], Some (EtcdError ErrorCodeKeyNotFound "Key not found"))) as Ha.
  { in_run. }
  split; [exact Hex|]. split; [exact Ha|].
  refine (proj2 (proj1
    (@key_not_found_listing_is_an_empty_result uuids errors c m2 [] m2 t
       (Returned tt) 7 [] (EtcdError ErrorCodeKeyNotFound "Key not found")
       _ _ Hex Ha) _ _)).
  - reflexivity.
  - vm_compute. reflexivity.
  - by exists "Key not found".
  - reflexivity.
Defined.

(** The minion that has a classifier gets its table. *)
Example classifier_table :
  (run session (execClassifierCommand (mkContext [m1])) (mkTerminal [] [])).1
  = (Returned tt,
     mkTerminal [mkTable 80 [["KEY"; "VALUE"]; ["role"; "web"]]] []).
Proof. vm_compute. reflexivity. Qed.

(** Without an argument the command exits with status 64. *)
Example classifier_without_argument :
  (run session (execClassifierCommand (mkContext [])) (mkTerminal [] [])).1
  = (Halted (os_Exit 64), mkTerminal [] [ErrorString "Missing minion uuid"]).
Proof. vm_compute. reflexivity. Qed.
End Session.

(** * Further properties *)

(** ** GetTask: the workers share [resp] and [err] *)
Section Tasks.
Import etcdclient client client_spec task_spec.
Context `{UUIDPackage} `{TaskImports}.
Context {W : Type} (h : handler kapiE W) (task : UUID).

Hypothesis reads_only :
  ∀ k opts w, (h (KAPI_Get k opts : Op kapiE) w).2 = w.

Lemma read_answer k opts w x :
  (h (KAPI_Get k opts : Op kapiE) w).1 = x →
  h (KAPI_Get k opts : Op kapiE) w = (x, w).
Proof using reads_only.
  intros Hx. pose proof (reads_only k opts w) as Hw.
  destruct (h _ w) as [x' w']. simpl in *. by subst.
Qed.

Lemma copy_tasks_id (m : gmap string MinionTask) : copy_tasks m = m.
Proof.
  unfold copy_tasks.
  rewrite <- (list_to_map_to_list m) at 2.
  rewrite <- (list_to_map_proper (reverse (map_to_list m)) (map_to_list m)).
  - generalize (map_to_list m) as l. intros l.
    rewrite <- (reverse_involutive l) at 1. generalize (reverse l) as l'. clear l.
    intros l'. induction l' as [|[s k] l' IH]; [done|].
    rewrite reverse_cons, foldl_app. simpl. by rewrite IH.
  - rewrite fmap_reverse, reverse_Permutation. apply NoDup_fst_map_to_list.
  - apply reverse_Permutation.
Qed.

(** One action of a chosen goroutine. *)
Ltac fire_with g :=
  eapply rtc_l;
  [ exists g; unfold fire_task, with_worker;
    cbn [task_etcd task_producer task_queue task_workers task_resp task_err
         task_cm task_logged task_panicked lookup list_lookup insert list_insert];
    try reflexivity
  | cbn [insert list_insert] ].

Section TwoMinions.
Context (w : W) (resp : Response.t) (n1 n2 : Node) (u1 u2 : UUID).
Hypothesis listing :
    (h (KAPI_Get EtcdMinionSpace None : Op kapiE) w).1 = inl resp.
Hypothesis two_nodes : Nodes (Response.Node resp) = [n1; n2].
Hypothesis first_minion : uuid_Parse (path_Base (Key n1)) = Some u1.
Hypothesis second_minion : uuid_Parse (path_Base (Key n2)) = Some u2.

(** Both minions are in the queue, the queue is closed, and worker 0
      holds [u1] while worker 1 holds [u2]. *)
Lemma both_received :
    rtc (task_step h task) (task_initial w resp)
      (mkTaskConfig w Closed []
         [TaskGetting u1; TaskGetting u2; TaskReceiving; TaskReceiving]
         (Some resp) None ∅ [] None).
Proof using two_nodes first_minion second_minion.
    unfold task_initial. rewrite two_nodes. unfold maxGoroutines. simpl replicate.
    fire_with the_producer.
    { rewrite first_minion, decide_True; [done|]. unfold queueCapacity. simpl. lia. }
    fire_with the_producer.
    { rewrite second_minion, decide_True; [done|]. unfold queueCapacity. simpl. lia. }
    fire_with the_producer.
    fire_with (worker 0).
    fire_with (worker 1).
    simpl. apply rtc_refl.
Qed.

(** Once the queue is closed and drained, idle workers leave. *)
Lemma idle_workers_finish resp' err' cm' :
    rtc (task_step h task)
      (mkTaskConfig w Closed []
         [TaskReceiving; TaskReceiving; TaskReceiving; TaskReceiving]
         resp' err' cm' [] None)
      (mkTaskConfig w Closed [] [TaskDone; TaskDone; TaskDone; TaskDone]
         resp' err' cm' [] None).
Proof.
    fire_with (worker 0). fire_with (worker 1). fire_with (worker 2).
    fire_with (worker 3). apply rtc_refl.
Qed.

Lemma four_done : Forall (λ x, x = TaskDone) [TaskDone; TaskDone; TaskDone; TaskDone].
Proof. by repeat constructor. Qed.

Section BothLogged.
Context (r1 r2 : Response.t) (t2 : MinionTask).
Hypothesis first_log :
      (h (KAPI_Get (task_log_key u1 task) None : Op kapiE) w).1 = inl r1.
Hypothesis second_log :
      (h (KAPI_Get (task_log_key u2 task) None : Op kapiE) w).1 = inl r2.
Hypothesis second_task :
      UnmarshalEtcdMinionTask (Response.Node r2) = (t2, None).

(** X5.  The workers of [GetTask] share [resp]: with two minions that
        both have logged the task, there is an interleaving in which
        worker 0 decodes [resp] after worker 1 has overwritten it, so that
        [GetTask] returns, under the first minion's UUID, the task logged
        by the second. *)
Theorem GetTask_can_return_the_task_of_another_minion :
      ∃ result,
        GetTask h task w (Returned (Some result, None)) ∧
        result !! uuid_String u1 = Some t2.
Proof using reads_only listing two_nodes first_minion second_minion
                first_log second_log second_task.
      apply read_answer in listing, first_log, second_log.
      unfold task_log_key in *.
      exists (<[uuid_String u2 := t2]> (<[uuid_String u1 := t2]> ∅)). split.
      - rewrite <- (copy_tasks_id (<[uuid_String u2 := t2]> _)).
        eapply (task_workers_joined h task w resp w
                  (mkTaskConfig w Closed [] [TaskDone; TaskDone; TaskDone; TaskDone]
                     (Some r2) None _ [] None));
          [done| |done|apply four_done].
        etrans; [apply both_received|].
        fire_with (worker 0). { by rewrite first_log. }
        fire_with (worker 1). { by rewrite second_log. }
        fire_with (worker 0).
        fire_with (worker 0). { by rewrite second_task. }
        fire_with (worker 0).
        fire_with (worker 1).
        fire_with (worker 1). { by rewrite second_task. }
        fire_with (worker 1).
        apply idle_workers_finish.
      - destruct (decide (uuid_String u2 = uuid_String u1)) as [->|Hne].
        + by rewrite lookup_insert_eq.
        + by rewrite lookup_insert_ne, lookup_insert_eq.
Qed.
End BothLogged.

Section OneLogged.
Context (r1 : Response.t) (e2 : error).
Hypothesis first_log :
      (h (KAPI_Get (task_log_key u1 task) None : Op kapiE) w).1 = inl r1.
Hypothesis second_log :
      (h (KAPI_Get (task_log_key u2 task) None : Op kapiE) w).1 = inr e2.

(** X6.  With two minions of which only the first has logged the task,
        there is an interleaving in which [GetTask] panics: worker 0 has
        checked [err] and is about to read [resp.Node] when the failed
        read of worker 1 sets [resp] to nil. *)
Theorem GetTask_can_panic :
      GetTask h task w
        (Halted (panic "invalid memory address or nil pointer dereference")).
Proof using reads_only listing two_nodes first_minion second_minion
                first_log second_log.
      apply read_answer in listing, first_log, second_log.
      unfold task_log_key in *.
      eapply (task_worker_panicked h task w resp w
                (mkTaskConfig w Closed []
                   [TaskDecoding u1; TaskChecking u2; TaskReceiving; TaskReceiving]
                   None (Some e2) ∅ [] (Some _))); [done| |done].
      etrans; [apply both_received|].
      fire_with (worker 0). { by rewrite first_log. }
      fire_with (worker 0).
      fire_with (worker 1). { by rewrite second_log. }
      fire_with (worker 0).
      apply rtc_refl.
Qed.

(** X7.  The entry of [u1] depends on the interleaving: it is lost when
        worker 0 checks [err] after the failed read of worker 1, and it is
        there when worker 0 runs its iteration alone. *)
Theorem GetTask_result_depends_on_the_interleaving t1 :
      UnmarshalEtcdMinionTask (Response.Node r1) = (t1, None) →
      GetTask h task w (Returned (Some ∅, None)) ∧
      GetTask h task w (Returned (Some {[ uuid_String u1 := t1 ]}, None)).
Proof using reads_only listing two_nodes first_minion second_minion
                first_log second_log.
      intros Hdec.
      apply read_answer in listing, first_log, second_log.
      unfold task_log_key in *. split.
      - rewrite <- (copy_tasks_id ∅).
        eapply (task_workers_joined h task w resp w
                  (mkTaskConfig w Closed [] [TaskDone; TaskDone; TaskDone; TaskDone]
                     None (Some e2) _ [] None));
          [done| |done|apply four_done].
        etrans; [apply both_received|].
        fire_with (worker 0). { by rewrite first_log. }
        fire_with (worker 1). { by rewrite second_log. }
        fire_with (worker 0).
        fire_with (worker 1).
        apply idle_workers_finish.
      - rewrite <- (copy_tasks_id {[ _ := _ ]}).
        eapply (task_workers_joined h task w resp w
                  (mkTaskConfig w Closed [] [TaskDone; TaskDone; TaskDone; TaskDone]
                     None (Some e2) _ [] None));
          [done| |done|apply four_done].
        etrans; [apply both_received|].
        fire_with (worker 0). { by rewrite first_log. }
        fire_with (worker 0).
        fire_with (worker 0). { by rewrite Hdec. }
        fire_with (worker 0).
        fire_with (worker 1). { by rewrite second_log. }
        fire_with (worker 1).
        apply idle_workers_finish.
Qed.
End OneLogged.
End TwoMinions.
End Tasks.

(** ** The service resource: connections, reads and writes *)
Section ServiceResourceMore.
Import resource resource_spec resource_more.

Lemma scoped_from_mono {R} (p : Prog sysE R) st (Q Q' : Outcome R → option Conn → Prop) :
  (∀ o st', Q o st' → Q' o st') → scoped_from p st Q → scoped_from p st Q'.
Proof.
  intros HQ. revert st. induction p as [r|op k IH|a]; simpl; intros st; [auto| |auto].
  intros Hp x. destruct (Hp x) as (st' & Hstep & Hk). eauto.
Qed.

Lemma scoped_from_bind {R S} (p : Prog sysE R) (k : R → Prog sysE S) st Q :
  scoped_from p st
    (λ o st', match o with
              | Returned r => scoped_from (k r) st' Q
              | Halted a => Q (Halted a) st'
              end) →
  scoped_from (bind p k) st Q.
Proof.
  revert st. induction p as [r|op c IH|a]; simpl; intros st; [done| |done].
  intros Hp x. destruct (Hp x) as (st' & Hstep & Hk). eauto.
Qed.

Lemma scoped_from_exec {R} (p : Prog sysE R) st Q t o :
  scoped_from p st Q → exec p t o →
  ∃ st', conn_after st t = Some st' ∧ Q o st'.
Proof.
  revert st t. induction p as [r|op k IH|a]; simpl; intros st t Hp Hex.
  - destruct Hex as [-> ->]. by exists st.
  - destruct Hex as (x & t' & -> & Hex). destruct (Hp x) as (st' & Hstep & Hk).
    destruct (IH x st' t' Hk Hex) as (st'' & Hafter & HQ).
    exists st''. split; [|done]. simpl. unfold obs in Hstep. by rewrite Hstep.
  - destruct Hex as [-> ->]. by exists st.
Qed.

(** Solve [scoped_from] goals of programs without loops. *)
Ltac scoped_go :=
  repeat first
    [ progress simpl
    | progress intros
    | match goal with
      | |- ∃ st', Some _ = Some st' ∧ _ => eexists; split; [reflexivity|]
      | |- ∃ st', (if decide (?a = ?a) then _ else _) = Some st' ∧ _ =>
          rewrite (decide_True (P := a = a)) by reflexivity
      | |- context [match ?x with _ => _ end] => is_var x; destruct x
      | |- context [assert_string ?v] => destruct v
      | |- context [bool_decide ?P] => destruct (bool_decide P)
      | |- context [negb (eqb ?a ?b)] => destruct (negb (eqb a b))
      | |- context [?a && negb ?b] => destruct a, b
      end
    | done ].

Lemma log_changes_scoped s with_destination changes st :
  scoped_from (log_changes s with_destination changes) st
    (λ o st', st' = st ∧ o = Returned tt).
Proof.
  induction changes as [|change rest IH]; simpl; [done|].
  destruct with_destination; simpl; intros []; eexists; (split; [reflexivity|]);
    exact IH.
Qed.

Lemma unitProperty_scoped s propertyName :
  scoped_from (unitProperty s propertyName) None closed_on_return.
Proof. unfold unitProperty, deferring, closed_on_return. scoped_go. Qed.

Lemma unitIsEnabled_scoped s :
  scoped_from (unitIsEnabled s) None closed_on_return.
Proof. unfold unitIsEnabled, unitProperty, deferring, closed_on_return. scoped_go. Qed.

Lemma daemonReload_scoped s :
  scoped_from (daemonReload s) None closed_on_return.
Proof. unfold daemonReload, deferring, closed_on_return. scoped_go. Qed.

Lemma Evaluate_scoped s :
  scoped_from (Evaluate s) None closed_on_return.
Proof.
  unfold Evaluate, unitIsEnabled, unitProperty, deferring, closed_on_return.
  scoped_go.
Qed.

Lemma Create_scoped s : scoped_from (Create s) None closed_on_return.
Proof. unfold Create, deferring, closed_on_return. scoped_go. Qed.

Lemma Delete_scoped s : scoped_from (Delete s) None closed_on_return.
Proof. unfold Delete, deferring, closed_on_return. scoped_go. Qed.

Lemma enableUnit_scoped s : scoped_from (enableUnit s) None closed_on_return.
Proof.
  unfold enableUnit, deferring, closed_on_return. simpl.
  intros [conn|err]; simpl; (eexists; split; [reflexivity|]); [|done].
  simpl. intros []. eexists; split; [reflexivity|]. simpl.
  intros [[b changes]|err]; rewrite decide_True by done;
    (eexists; split; [reflexivity|]); [|scoped_go].
  apply scoped_from_bind, scoped_from_bind.
  eapply scoped_from_mono; [|apply log_changes_scoped].
  intros o st' [-> ->]. scoped_go.
Qed.

Lemma disableUnit_scoped s : scoped_from (disableUnit s) None closed_on_return.
Proof.
  unfold disableUnit, deferring, closed_on_return. simpl.
  intros [conn|err]; simpl; (eexists; split; [reflexivity|]); [|done].
  simpl. intros []. eexists; split; [reflexivity|]. simpl.
  intros [changes|err]; rewrite decide_True by done;
    (eexists; split; [reflexivity|]); [|scoped_go].
  apply scoped_from_bind, scoped_from_bind.
  eapply scoped_from_mono; [|apply log_changes_scoped].
  intros o st' [-> ->]. scoped_go.
Qed.

Lemma Update_scoped s : scoped_from (Update s) None closed_on_return.
Proof.
  unfold Update. apply scoped_from_bind.
  eapply scoped_from_mono; [|apply unitIsEnabled_scoped].
  intros [[enabled [err|]]|a] st' Hst; unfold closed_on_return in *; subst; simpl;
    [done| |done].
  apply scoped_from_bind.
  eapply scoped_from_mono;
    [|destruct (_ && _); [apply enableUnit_scoped|apply disableUnit_scoped]].
  intros [e1|a] st' Hst; unfold closed_on_return in *; subst; [|done].
  apply daemonReload_scoped.
Qed.

(** X1.  In every execution of [Evaluate], [Create], [Delete] or
    [Update], whatever systemd answers and whether the method returns or
    panics: at most one connection is open at a time, every D-Bus call
    goes through the connection that is open, and the connection is
    closed when the method ends. *)
Theorem connections_are_scoped s t :
  (∀ o, exec (Evaluate s) t o → scoped t) ∧
  (∀ o, exec (Create s) t o → scoped t) ∧
  (∀ o, exec (Delete s) t o → scoped t) ∧
  (∀ o, exec (Update s) t o → scoped t).
Proof.
  unfold scoped.
  split_and!; intros o Hex;
    [ destruct (scoped_from_exec _ _ _ _ _ (Evaluate_scoped s) Hex) as (st & ? & ->)
    | destruct (scoped_from_exec _ _ _ _ _ (Create_scoped s) Hex) as (st & ? & ->)
    | destruct (scoped_from_exec _ _ _ _ _ (Delete_scoped s) Hex) as (st & ? & ->)
    | destruct (scoped_from_exec _ _ _ _ _ (Update_scoped s) Hex) as (st & ? & ->) ];
    done.
Qed.

(** *** What Evaluate and Update call *)

Lemma unitProperty_within s propertyName (P : sysOp → Prop) :
  P dbus_New → (∀ conn, P (Conn_Close conn)) →
  (∀ conn, P (Conn_GetUnitProperty conn (UnitName s) propertyName)) →
  within (P : Op sysE → Prop) (unitProperty s propertyName).
Proof.
  intros Hnew Hclose Hget. unfold unitProperty, deferring. simpl.
  split; [done|]. intros [conn|err]; simpl; [|done].
  split; [done|]. intros x. simpl. split; [done|]. done.
Qed.

Lemma unitIsEnabled_within s (P : sysOp → Prop) :
  P dbus_New → (∀ conn, P (Conn_Close conn)) →
  (∀ conn, P (Conn_GetUnitProperty conn (UnitName s) "UnitFileState")) →
  within (P : Op sysE → Prop) (unitIsEnabled s).
Proof.
  intros Hnew Hclose Hget. unfold unitIsEnabled.
  apply within_bind; [by apply unitProperty_within|].
  intros [unitState|err]; [|done].
  apply within_bind; [by destruct (Value unitState)|].
  intros value. by repeat case_bool_decide.
Qed.

(** X2.  [Evaluate] only reads: in every execution its calls are [dbus.New],
    [Close], and [GetUnitProperty] of the resource's own unit for
    [ActiveState] or [UnitFileState]; it never starts, stops, enables,
    disables or reloads anything and writes no log line. *)
Theorem Evaluate_only_reads s t o :
  exec (Evaluate s) t o → Forall (evaluate_call s) (calls t).
Proof.
  apply (within_exec (evaluate_call s : Op sysE → Prop)).
  unfold Evaluate.
  apply within_bind; [apply unitProperty_within; simpl; auto|].
  intros [activeState|err]; [|done].
  apply within_bind; [by destruct (Value activeState)|].
  intros value.
  apply within_bind; [apply unitIsEnabled_within; simpl; auto|].
  intros [enabled [err|]]; done.
Qed.

(** X3.  Whatever [Evaluate] returns: [Want] is the declared state; a state
    returned with an error never asks for an update; and [Current] is
    [StateUnknown] unless [ActiveState] was read. *)
Theorem Evaluate_state_on_error s t st err :
  exec (Evaluate s) t (Returned (st, err)) →
  State.Want st = State (Base s) ∧
  (is_Some err → State.Update st = false) ∧
  ((∀ conn x, ¬ answered t
       (Conn_GetUnitProperty conn (UnitName s) "ActiveState" : Op sysE) (inl x)) →
   State.Current st = StateUnknown ∧ is_Some err).
Proof.
  intros (t1 & r1 & Hp & Hr)%exec_Evaluate.
  destruct r1 as [activeState|err1].
  - assert (∃ conn, answered t1
              (Conn_GetUnitProperty conn (UnitName s) "ActiveState" : Op sysE)
              (inl activeState)) as [conn Ha].
    { apply exec_unitProperty in Hp as [(e & _ & [=])|(conn & r & -> & [= <-])].
      exists conn. in_trace. }
    destruct (Value activeState) as [v| |]; [|by destruct Hr as (_ & ? & [=])..].
    destruct Hr as (t2 & o2 & -> & He & Ho).
    assert (State.Want st = State (Base s) ∧ (is_Some err → State.Update st = false))
      as [HW HU].
    { destruct o2 as [[enabled [e|]]|a]; simplify_eq; simpl.
      - done.
      - split; [done|]. by intros [? [=]]. }
    split; [done|]. split; [done|]. intros Hno. destruct (Hno conn activeState).
    apply answered_app. by left.
  - destruct Hr as [-> Ho]. injection Ho as -> ->. simpl.
    split; [done|]. split; [done|]. eauto.
Qed.

Lemma log_changes_within s with_destination changes :
  within (update_call s : Op sysE → Prop) (log_changes s with_destination changes).
Proof.
  induction changes as [|change rest IH]; simpl; [done|].
  destruct with_destination; simpl; split; done.
Qed.

Lemma Update_within s : within (update_call s : Op sysE → Prop) (Update s).
Proof.
  unfold Update.
  apply within_bind; [apply unitIsEnabled_within; simpl; auto|].
  intros [enabled [err|]]; [done|].
  apply within_bind.
  - destruct (_ && _).
    + unfold enableUnit, deferring. simpl. split; [done|].
      intros [conn|err]; simpl; [|done]. split; [done|]. intros _. split; [done|].
      intros [[? changes]|err]; simpl; [|done].
      apply within_bind; [|done]. apply within_bind; [apply log_changes_within|done].
    + unfold disableUnit, deferring. simpl. split; [done|].
      intros [conn|err]; simpl; [|done]. split; [done|]. intros _. split; [done|].
      intros [changes|err]; simpl; [|done].
      apply within_bind; [|done]. apply within_bind; [apply log_changes_within|done].
  - intros _. unfold daemonReload, deferring. simpl. split; [done|].
    intros [conn|err]; simpl; done.
Qed.

(** X4.  [Update] touches the boot-time enablement only: in every execution
    its calls are [dbus.New], [Close], the read of [UnitFileState] of the
    resource's unit, [EnableUnitFiles] or [DisableUnitFiles] of exactly
    that unit (not runtime, not forced), [Reload] and log lines; it never
    starts or stops the unit and never reads [ActiveState]. *)
Theorem Update_only_touches_enablement s t o :
  exec (Update s) t o → Forall (update_call s) (calls t).
Proof. apply (within_exec (update_call s : Op sysE → Prop)), Update_within. Qed.
End ServiceResourceMore.

(** ** The further properties on concrete hosts and clusters *)
Section MoreWitnesses.
Import etcdclient client client_spec task_spec cluster cluster_tasks.
Import resource resource_spec resource_more scenario.

Lemma GetTask_can_return_the_task_of_another_minion_witness :
  ∃ result,
    GetTask etcd job both_logged (Returned (Some result, None)) ∧
    result !! m1 = Some "uptime: 40 days".
Proof.
  refine (GetTask_can_return_the_task_of_another_minion etcd job etcd_reads_only
            both_logged pair_listing d1 d2 m1 m2 _ _ _ _
            (Response.mk "get" log1) (Response.mk "get" log2) "uptime: 40 days"
            _ _ _); vm_compute; reflexivity.
Defined.

Lemma GetTask_can_panic_witness :
  GetTask etcd job one_logged
    (Halted (panic "invalid memory address or nil pointer dereference")).
Proof.
  refine (GetTask_can_panic etcd job etcd_reads_only one_logged pair_listing
            d1 d2 m1 m2 _ _ _ _ (Response.mk "get" log1)
            (EtcdError ErrorCodeKeyNotFound "Key not found") _ _);
    vm_compute; reflexivity.
Defined.

Lemma GetTask_result_depends_on_the_interleaving_witness :
  GetTask etcd job one_logged (Returned (Some ∅, None)) ∧
  GetTask etcd job one_logged (Returned (Some {[ m1 := "uptime: 3 days" ]}, None)).
Proof.
  refine (GetTask_result_depends_on_the_interleaving etcd job etcd_reads_only
            one_logged pair_listing d1 d2 m1 m2 _ _ _ _ (Response.mk "get" log1)
            (EtcdError ErrorCodeKeyNotFound "Key not found") _ _
            "uptime: 3 days" _);
    vm_compute; reflexivity.
Defined.

Lemma connections_are_scoped_witness :
  let t := (run systemd (Update nginx) (failing_host "active" "disabled")).2 in
  exec (Update nginx) t (Returned None) ∧ scoped t.
Proof.
  intros t.
  assert (exec (Update nginx) t (Returned None)) as Hex.
  { exact (run_exec systemd (Update nginx) (failing_host "active" "disabled")). }
  split; [exact Hex|].
  exact (proj2 (proj2 (proj2 (connections_are_scoped nginx t))) _ Hex).
Defined.

Lemma Evaluate_only_reads_witness :
  let t := (run systemd (Evaluate nginx) (host "inactive" "disabled")).2 in
  exec (Evaluate nginx) t (Returned (State.mk StateStopped StateRunning true, None)) ∧
  Forall (evaluate_call nginx) (calls t).
Proof.
  intros t.
  assert (exec (Evaluate nginx) t
            (Returned (State.mk StateStopped StateRunning true, None))) as Hex.
  { exact (run_exec systemd (Evaluate nginx) (host "inactive" "disabled")). }
  split; [exact Hex|]. exact (Evaluate_only_reads nginx t _ Hex).
Defined.

Lemma Evaluate_state_on_error_witness :
  let t := (run systemd (Evaluate nginx) (host "active" "indirect")).2 in
  exec (Evaluate nginx) t
    (Returned (State.mk StateRunning StateRunning false,
               Some (ErrorString "Invalid unit state"))) ∧
  StateRunning = State (Base nginx) ∧
  (is_Some (Some (ErrorString "Invalid unit state")) → false = false).
Proof.
  intros t.
  assert (exec (Evaluate nginx) t
            (Returned (State.mk StateRunning StateRunning false,
                       Some (ErrorString "Invalid unit state")))) as Hex.
  { exact (run_exec systemd (Evaluate nginx) (host "active" "indirect")). }
  split; [exact Hex|].
  destruct (Evaluate_state_on_error nginx t _ _ Hex) as (HW & HU & _).
  split; [exact HW|exact HU].
Defined.

Lemma Update_only_touches_enablement_witness :
  let t := (run systemd (Update nginx) (host "active" "disabled")).2 in
  exec (Update nginx) t (Returned None) ∧ Forall (update_call nginx) (calls t).
Proof.
  intros t.
  assert (exec (Update nginx) t (Returned None)) as Hex.
  { exact (run_exec systemd (Update nginx) (host "active" "disabled")). }
  split; [exact Hex|]. exact (Update_only_touches_enablement nginx t _ Hex).
Defined.
End MoreWitnesses.
